(** * Reti staking UI: transaction orchestration and data aggregation

    A shallow embedding of the contract API of the UI (the module that
    the forms import as [@/api/contracts]): the fee formulas of the
    two-phase (simulate, then execute) operations, the transaction
    groups they build, the five-way join of [fetchValidator], the batch
    loops of [fetchValidators] and [fetchStakerValidatorData], the fold
    that aggregates a staker's pools by validator, and the choice of the
    entry gating encoding in [addValidator].

    Conventions.  A JavaScript [number] that holds an integer is a [Z].
    The amounts of the staker data are uint64 values turned into
    numbers and added up: there [Number(bigint)] and [+=] round to the
    nearest double ([JsNumber.roundDouble]), which changes nothing up to
    2^53.  Ids, counts, budgets and the amounts of a single pool are
    numbers far below 2^53, on which the program's arithmetic is that
    of the integers.  The fee expression that divides without rounding
    is given its exact rational value [Q]; the double the program
    computes is that value on the budgets that are a multiple of 700 and
    next to it elsewhere.  A promise is modelled by its outcome; the
    order in which requests are issued and awaited is kept in a log. *)

From Stdlib Require Import Strings.String Strings.Ascii.
From Stdlib Require Import ZArith QArith List Bool Arith Lia Permutation.
Import ListNotations.

Set Implicit Arguments.

(* ================================================================== *)
(** * Fee estimation *)
(* ================================================================== *)

Module Fees.

Open Scope Z_scope.

(** The state-mutating operations that simulate before they execute. *)
Inductive Operation : Type :=
| AddValidator
| AddStake
| RemoveStake
| EpochBalanceUpdate
| ClaimTokens.

(** [1000 * Math.floor((appBudgetAdded + 699) / 700)], as written in
    [addValidator], [removeStake] and [claimTokens].  On an integer
    numerator [Math.floor] of the quotient is [Z.div]. *)
Definition feesAmount_rounded (appBudgetAdded : Z) : Q :=
  inject_Z (1000 * ((appBudgetAdded + 699) / 700)).

(** [c + 1000 * (appBudgetAdded / 700)], as written in [addStake]
    (c = 2000) and [epochBalanceUpdate] (c = 3000): the quotient is the
    plain [/] of two numbers, with no [Math.floor] or [Math.ceil].  This
    is the exact value of the expression.  The program evaluates it in
    doubles: on a budget that is a multiple of 700 the result is this
    value, on any other budget the double next to it (a relative error
    below 2^-50).  What is said below about the size of the fee is
    therefore an equation on the multiples of 700 and a bound with room
    to spare everywhere else. *)
Definition feesAmount_padded (c : Z) (appBudgetAdded : Z) : Q :=
  (inject_Z c + 1000 * (inject_Z appBudgetAdded / 700))%Q.

Definition feesAmount (op : Operation) (appBudgetAdded : Z) : Q :=
  match op with
  | AddValidator => feesAmount_rounded appBudgetAdded
  | AddStake => feesAmount_padded 2000 appBudgetAdded
  | RemoveStake => feesAmount_rounded appBudgetAdded
  | EpochBalanceUpdate => feesAmount_padded 3000 appBudgetAdded
  | ClaimTokens => feesAmount_rounded appBudgetAdded
  end.

(** The constant the source adds in front of the per-budget amount. *)
Definition surcharge (op : Operation) : Z :=
  match op with
  | AddStake => 2000
  | EpochBalanceUpdate => 3000
  | AddValidator | RemoveStake | ClaimTokens => 0
  end.


(** The rule in the words of the specification:
    [ceil(consumed / 700) * 1000], plus the operation's flat surcharge. *)
Definition ceil_div (a b : Z) : Z := - ((- a) / b).

Definition spec_fee (op : Operation) (appBudgetAdded : Z) : Q :=
  inject_Z (ceil_div appBudgetAdded 700 * 1000 + surcharge op).

Lemma ceil_div_700 (b : Z) : ceil_div b 700 = (b + 699) / 700.
Proof.
  unfold ceil_div.
  pose proof (Z.div_mod (- b) 700 ltac:(lia)) as H1.
  pose proof (Z.mod_pos_bound (- b) 700 ltac:(lia)) as H2.
  pose proof (Z.div_mod (b + 699) 700 ltac:(lia)) as H3.
  pose proof (Z.mod_pos_bound (b + 699) 700 ltac:(lia)) as H4.
  lia.
Qed.

(** The three operations that round agree with the rule for every budget. *)
Lemma feesAmount_rounded_spec (op : Operation) (b : Z) :
  op = AddValidator \/ op = RemoveStake \/ op = ClaimTokens ->
  feesAmount op b = spec_fee op b.
Proof.
  intros [-> | [-> | ->]]; unfold spec_fee, feesAmount, feesAmount_rounded;
    cbn [surcharge]; rewrite ceil_div_700; f_equal; lia.
Qed.

(** The two operations that do not round agree with the rule on the
    budgets that are a multiple of 700. *)
Lemma feesAmount_padded_multiple (c k : Z) :
  (feesAmount_padded c (700 * k) == inject_Z (ceil_div (700 * k) 700 * 1000 + c))%Q.
Proof.
  unfold feesAmount_padded.
  rewrite ceil_div_700.
  replace ((700 * k + 699) / 700) with k
    by (apply Z.div_unique with (r := 699); lia).
  rewrite !inject_Z_plus, !inject_Z_mult.
  field.
Qed.

Lemma feesAmount_multiple_spec (op : Operation) (k : Z) :
  (feesAmount op (700 * k) == spec_fee op (700 * k))%Q.
Proof.
  destruct op; unfold feesAmount, spec_fee; cbn [surcharge];
    try apply feesAmount_padded_multiple;
    unfold feesAmount_rounded; rewrite ceil_div_700;
    replace (1000 * ((700 * k + 699) / 700))
      with ((700 * k + 699) / 700 * 1000 + 0) by lia;
    apply Qeq_refl.
Qed.

(** Off the multiples of 700 no flat surcharge at all makes [addStake]
    follow the rule: budgets 0 and 1 already disagree on it. *)
Lemma addStake_no_flat_surcharge :
  ~ exists c : Q, forall b : Z, 0 <= b ->
      (feesAmount AddStake b == inject_Z (ceil_div b 700 * 1000) + c)%Q.
Proof.
  intros [c H].
  pose proof (H 0 ltac:(lia)) as H0.
  pose proof (H 1 ltac:(lia)) as H1.
  unfold feesAmount, feesAmount_padded in H0, H1.
  rewrite ceil_div_700 in H0, H1.
  change ((0 + 699) / 700) with 0 in H0.
  change ((1 + 699) / 700) with 1 in H1.
  assert (E : (c == 2000)%Q).
  { rewrite <- (Qplus_0_l c). rewrite <- H0. reflexivity. }
  rewrite E in H1. vm_compute in H1. discriminate.
Qed.

(** Where the quotient is not rounded: with a simulated budget of 701
    the expression of [addStake] has the value 2000 + 1000 * 701/700 =
    21010/7 (the program computes the double next to it,
    3001.4285714285716) and that of [epochBalanceUpdate] 28010/7, not
    the 4000 and 5000 of the rule; [removeStake] attaches the rounded
    2000. *)
Lemma feesAmount_unrounded_at_701 :
  (feesAmount AddStake 701 == 21010 # 7)%Q /\
  (feesAmount EpochBalanceUpdate 701 == 28010 # 7)%Q /\
  spec_fee AddStake 701 = inject_Z 4000 /\
  spec_fee EpochBalanceUpdate 701 = inject_Z 5000 /\
  ~ (feesAmount AddStake 701 == spec_fee AddStake 701)%Q /\
  ~ (feesAmount EpochBalanceUpdate 701 == spec_fee EpochBalanceUpdate 701)%Q /\
  feesAmount RemoveStake 701 = inject_Z 2000.
Proof.
  repeat split; try reflexivity; intro H; vm_compute in H; discriminate.
Qed.


(** The amounts by operation: [addValidator], [removeStake] and
    [claimTokens] compute exactly [ceil(appBudgetAdded / 700) * 1000],
    whatever the budget and with no surcharge; [addStake] and
    [epochBalanceUpdate] compute that amount plus 2000 and 3000 on every
    budget that is a multiple of 700. *)
Lemma feesAmount_rule (b k : Z) :
  feesAmount AddValidator b = inject_Z (ceil_div b 700 * 1000) /\
  feesAmount RemoveStake b = inject_Z (ceil_div b 700 * 1000) /\
  feesAmount ClaimTokens b = inject_Z (ceil_div b 700 * 1000) /\
  (feesAmount AddStake (700 * k)
     == inject_Z (ceil_div (700 * k) 700 * 1000 + 2000))%Q /\
  (feesAmount EpochBalanceUpdate (700 * k)
     == inject_Z (ceil_div (700 * k) 700 * 1000 + 3000))%Q.
Proof.
  repeat split;
    try (unfold feesAmount, feesAmount_rounded; rewrite ceil_div_700;
         f_equal; lia).
  - apply (feesAmount_multiple_spec AddStake).
  - apply (feesAmount_multiple_spec EpochBalanceUpdate).
Qed.

(** ** Further properties of the fee formulas *)

(** The fee in units of 1/700 micro-unit, which is a whole number for
    every operation. *)
Lemma feesAmount_rounded_700 (b : Z) :
  (feesAmount_rounded b == (700000 * ((b + 699) / 700)) # 700)%Q.
Proof.
  unfold feesAmount_rounded, inject_Z, Qeq. cbn [Qnum Qden]. lia.
Qed.

Lemma feesAmount_padded_700 (c b : Z) :
  (feesAmount_padded c b == (700 * c + 1000 * b) # 700)%Q.
Proof.
  unfold feesAmount_padded. rewrite (Qmake_Qdiv (700 * c + 1000 * b) 700).
  rewrite inject_Z_plus, !inject_Z_mult. field.
Qed.


(** Every operation attaches at least 1000 micro-units per 700 units of
    simulated budget, and a larger budget never lowers the fee. *)
Lemma feesAmount_covers_budget (op : Operation) (b b' : Z) :
  b <= b' ->
  ((1000 * b) # 700 <= feesAmount op b)%Q /\
  (feesAmount op b <= feesAmount op b')%Q.
Proof.
  intros Hb.
  pose proof (Z.div_mod (b + 699) 700 ltac:(lia)) as D.
  pose proof (Z.mod_pos_bound (b + 699) 700 ltac:(lia)) as M.
  pose proof (Z.div_le_mono (b + 699) (b' + 699) 700 ltac:(lia) ltac:(lia)) as Hmono.
  destruct op; unfold feesAmount;
    rewrite ?feesAmount_rounded_700, ?feesAmount_padded_700;
    unfold Qle; cbn [Qnum Qden]; split; lia.
Qed.

Lemma feesAmount_covers_budget_witness :
  ((1000 * 701) # 700 <= feesAmount AddStake 701)%Q /\
  (feesAmount AddStake 701 <= feesAmount AddStake 1400)%Q.
Proof. apply feesAmount_covers_budget. lia. Defined.

End Fees.

(* ================================================================== *)
(** * JavaScript numbers that hold integers *)
(* ================================================================== *)

Module JsNumber.

Open Scope Z_scope.

(** The double nearest to the integer [z], ties to the even mantissa
    (integers below 2^1024 in size; larger ones do not occur).  Up to
    2^53 every integer is a double; from there on a double has a 53-bit
    mantissa [q] and is [q * 2^e]. *)
Definition roundDouble (z : Z) : Z :=
  let m := Z.abs z in
  if m <=? 2 ^ 53 then z
  else
    let e := Z.log2 m - 52 in
    let q := m / 2 ^ e in
    let r := m mod 2 ^ e in
    let half := 2 ^ (e - 1) in
    let q' := if r <? half then q
              else if half <? r then q + 1
              else if Z.even q then q else q + 1 in
    Z.sgn z * (q' * 2 ^ e).

(** [Number(n)] of a [bigint]. *)
Definition Number (n : Z) : Z := roundDouble n.

(** [x + y] on two numbers that hold integers. *)
Definition add (x y : Z) : Z := roundDouble (x + y).

Lemma roundDouble_exact (z : Z) : Z.abs z <= 2 ^ 53 -> roundDouble z = z.
Proof.
  intros H. unfold roundDouble.
  destruct (Z.leb_spec (Z.abs z) (2 ^ 53)); [reflexivity | lia].
Qed.

Lemma add_exact (x y : Z) : 0 <= x -> 0 <= y -> x + y <= 2 ^ 53 -> add x y = x + y.
Proof. intros Hx Hy H. apply roundDouble_exact. lia. Qed.

Example roundDouble_ties :
  roundDouble (2 ^ 53 + 1) = 2 ^ 53 /\
  roundDouble (2 ^ 53 + 3) = 2 ^ 53 + 4 /\
  roundDouble (2 ^ 54 + 2) = 2 ^ 54 /\
  roundDouble (2 ^ 54 + 6) = 2 ^ 54 + 8 /\
  roundDouble (2 ^ 54 - 1) = 2 ^ 54 /\
  roundDouble (- (2 ^ 53 + 1)) = - 2 ^ 53 /\
  roundDouble (2 ^ 64 - 1) = 2 ^ 64.
Proof. repeat split; vm_compute; reflexivity. Qed.

End JsNumber.

(* ================================================================== *)
(** * Staker aggregation: the fold of [fetchStakerValidatorData] *)
(* ================================================================== *)

Module Aggregator.

Open Scope Z_scope.

Record ValidatorPoolKey : Type := mkPoolKey {
  validatorId : Z;
  poolId : Z;
  poolAppId : Z
}.

(** [StakerPoolData]: a [StakedInfo] together with the key of its pool. *)
Record StakerPoolData : Type := mkPool {
  account : string;
  balance : Z;
  totalRewarded : Z;
  rewardTokenBalance : Z;
  entryTime : Z;
  poolKey : ValidatorPoolKey
}.

(** [StakerValidatorData], the aggregate per validator. *)
Module SV.
Record t : Type := mk {
  validatorId : Z;
  balance : Z;
  totalRewarded : Z;
  rewardTokenBalance : Z;
  entryTime : Z;
  pools : list StakerPoolData
}.
End SV.

Definition StakerValidatorData : Type := SV.t.

(** The [else] branch of the reducer: the object pushed for the first
    pool of a validator. *)
Definition seed (pool : StakerPoolData) : StakerValidatorData :=
  SV.mk (validatorId (poolKey pool)) (balance pool) (totalRewarded pool)
        (rewardTokenBalance pool) (entryTime pool) [pool].

(** The [if (existingData)] branch: the three [+=] on numbers, the
    [Math.min] and the [pools.push] on the object that [find] returned. *)
Definition merged (existingData : StakerValidatorData) (pool : StakerPoolData)
  : StakerValidatorData :=
  SV.mk (SV.validatorId existingData)
        (JsNumber.add (SV.balance existingData) (balance pool))
        (JsNumber.add (SV.totalRewarded existingData) (totalRewarded pool))
        (JsNumber.add (SV.rewardTokenBalance existingData) (rewardTokenBalance pool))
        (Z.min (SV.entryTime existingData) (entryTime pool))
        (SV.pools existingData ++ [pool]).

Definition sameValidator (v : Z) (data : StakerValidatorData) : bool :=
  SV.validatorId data =? v.

(** The object [find] returns is an element of [acc] itself, so updating
    it updates the array in place: the first element that satisfies the
    predicate is replaced, every other one is left where it is. *)
Fixpoint update_found (pred : StakerValidatorData -> bool)
    (upd : StakerValidatorData -> StakerValidatorData)
    (acc : list StakerValidatorData) : list StakerValidatorData :=
  match acc with
  | [] => []
  | data :: rest =>
      if pred data then upd data :: rest
      else data :: update_found pred upd rest
  end.

(** The callback given to [allPools.reduce]. *)
Definition reducer (acc : list StakerValidatorData) (pool : StakerPoolData)
  : list StakerValidatorData :=
  let v := validatorId (poolKey pool) in
  match find (sameValidator v) acc with
  | Some _existingData =>
      update_found (sameValidator v) (fun d => merged d pool) acc
  | None => acc ++ [seed pool]
  end.

(** [allPools.reduce(reducer, [])]. *)
Definition aggregate (allPools : list StakerPoolData) : list StakerValidatorData :=
  fold_left reducer allPools [].

(** ** The declarative view: group by validator, then summarise *)

Definition inValidator (v : Z) (pool : StakerPoolData) : bool :=
  validatorId (poolKey pool) =? v.

(** The pools of validator [v], in the order of the input. *)
Definition constituents (v : Z) (allPools : list StakerPoolData) : list StakerPoolData :=
  filter (inValidator v) allPools.

(** The sum of a list of integers. *)
Definition sumZ (l : list Z) : Z := fold_right Z.add 0 l.

(** The total the program computes: the amounts added one after the
    other, from the left, as numbers. *)
Definition jsTotal (l : list Z) : Z :=
  match l with
  | [] => 0
  | x :: rest => fold_left JsNumber.add rest x
  end.

(** A list of amounts whose sum the program computes exactly: none is
    negative, and the sum is at most 2^53. *)
Definition exactSum (l : list Z) : Prop :=
  Forall (fun x => 0 <= x) l /\ sumZ l <= 2 ^ 53.

(** The least element of [x :: l]. *)
Definition minZ (x : Z) (l : list Z) : Z := fold_right Z.min x l.

(** The aggregate of a non-empty group: the totals of the three
    amounts, the least entry time, the group itself. *)
Definition summary (v : Z) (ps : list StakerPoolData) : option StakerValidatorData :=
  match ps with
  | [] => None
  | p :: rest =>
      Some (SV.mk v
              (jsTotal (map balance ps))
              (jsTotal (map totalRewarded ps))
              (jsTotal (map rewardTokenBalance ps))
              (minZ (entryTime p) (map entryTime rest))
              ps)
  end.

(** The aggregate of validator [v] in an output list. *)
Definition lookup (v : Z) (acc : list StakerValidatorData) : option StakerValidatorData :=
  find (sameValidator v) acc.

(** The four numbers of an aggregate, without its list of pools. *)
Definition totals (d : StakerValidatorData) : Z * Z * Z * Z :=
  (SV.balance d, SV.totalRewarded d, SV.rewardTokenBalance d, SV.entryTime d).

(** ** Lists of integers *)

Arguments sumZ : simpl never.
Arguments minZ : simpl never.
Arguments jsTotal : simpl never.

Lemma sumZ_cons (x : Z) (l : list Z) : sumZ (x :: l) = x + sumZ l.
Proof. reflexivity. Qed.

Lemma sumZ_app (l1 l2 : list Z) : sumZ (l1 ++ l2) = sumZ l1 + sumZ l2.
Proof. unfold sumZ; induction l1 as [|x l1 IH]; cbn; lia. Qed.

Lemma minZ_snoc (x y : Z) (l : list Z) : minZ x (l ++ [y]) = Z.min (minZ x l) y.
Proof. unfold minZ; induction l as [|z l IH]; cbn; lia. Qed.

Lemma sumZ_perm (l1 l2 : list Z) : Permutation l1 l2 -> sumZ l1 = sumZ l2.
Proof. unfold sumZ; induction 1; cbn; lia. Qed.

Lemma minZ_le_head (x : Z) (l : list Z) : minZ x l <= x.
Proof. unfold minZ; induction l as [|z l IH]; cbn; lia. Qed.

Lemma minZ_le_In (x : Z) (l : list Z) (y : Z) : In y l -> minZ x l <= y.
Proof.
  unfold minZ; induction l as [|z l IH]; cbn; [tauto|].
  intros [-> | H]; [lia | specialize (IH H); lia].
Qed.

Lemma minZ_In (x : Z) (l : list Z) : In (minZ x l) (x :: l).
Proof.
  unfold minZ; induction l as [|z l IH]; cbn; [now left|].
  destruct (Z.min_spec z (fold_right Z.min x l)) as [[_ ->] | [_ ->]].
  - right; now left.
  - cbn in IH. destruct IH as [IH | IH]; [now left | right; now right].
Qed.

(** The least element does not depend on the order of the list. *)
Lemma minZ_perm (x y : Z) (l1 l2 : list Z) :
  Permutation (x :: l1) (y :: l2) -> minZ x l1 = minZ y l2.
Proof.
  intros HP.
  assert (lower : forall a l b m, Permutation (a :: l) (b :: m) -> minZ a l <= minZ b m).
  { intros a l b m P.
    pose proof (minZ_In b m) as Hin.
    apply (Permutation_in _ (Permutation_sym P)) in Hin.
    destruct Hin as [<- | Hin]; [apply minZ_le_head | now apply minZ_le_In]. }
  apply Z.le_antisymm; [apply lower | apply lower; apply Permutation_sym]; exact HP.
Qed.

Lemma sumZ_nonneg (l : list Z) : Forall (fun x => 0 <= x) l -> 0 <= sumZ l.
Proof.
  induction 1 as [|x l Hx _ IH]; [reflexivity|]. rewrite sumZ_cons. lia.
Qed.

Lemma jsTotal_snoc (l : list Z) (y : Z) :
  l <> [] -> jsTotal (l ++ [y]) = JsNumber.add (jsTotal l) y.
Proof.
  destruct l as [|x rest]; [congruence|]. intros _.
  unfold jsTotal. cbn [app]. now rewrite fold_left_app.
Qed.

(** On amounts that are not negative and sum to at most 2^53 the total
    the program computes is the sum. *)
Lemma jsTotal_exact (l : list Z) : exactSum l -> jsTotal l = sumZ l.
Proof.
  intros [Hpos Hsum]. destruct l as [|x rest]; [reflexivity|].
  unfold jsTotal. rewrite sumZ_cons in Hsum.
  inversion Hpos as [|? ? Hx Hrest]; subst. clear Hpos.
  revert x Hx Hsum. induction Hrest as [|y rest Hy Hrest IH]; intros x Hx Hsum.
  - cbn [fold_left]. rewrite sumZ_cons. change (sumZ []) with 0. lia.
  - cbn [fold_left]. rewrite !sumZ_cons in *.
    pose proof (sumZ_nonneg Hrest) as Hr.
    rewrite JsNumber.add_exact by lia.
    rewrite IH by lia. rewrite sumZ_cons. lia.
Qed.

Lemma exactSum_perm (l1 l2 : list Z) : Permutation l1 l2 -> exactSum l1 -> exactSum l2.
Proof.
  intros P [Hpos Hsum]. split.
  - now apply (Permutation_Forall P).
  - now rewrite <- (sumZ_perm P).
Qed.

Lemma exactSum_filter {A : Type} (f : A -> Z) (keep : A -> bool) (l : list A) :
  exactSum (map f l) -> exactSum (map f (filter keep l)) /\
  sumZ (map f (filter keep l)) <= sumZ (map f l).
Proof.
  unfold exactSum. induction l as [|a l IH]; cbn [map filter]; intros [Hpos Hsum].
  - repeat split; [constructor | exact Hsum | lia].
  - inversion Hpos as [|? ? Ha Hl]; subst. rewrite sumZ_cons in Hsum.
    pose proof (sumZ_nonneg Hl) as Hnn.
    assert (Hl' : sumZ (map f l) <= 2 ^ 53) by lia.
    destruct (IH (conj Hl Hl')) as [[IHpos IHsum] IHle].
    destruct (keep a); cbn [map]; rewrite ?sumZ_cons.
    + repeat split; [now constructor | lia | lia].
    + repeat split; [assumption | lia | lia].
Qed.

(** ** What [find] and the in-place update do *)

Lemma lookup_Some (v : Z) (acc : list StakerValidatorData) (d : StakerValidatorData) :
  lookup v acc = Some d -> In d acc /\ SV.validatorId d = v.
Proof.
  intros H. apply find_some in H. destruct H as [Hin Hv].
  split; [exact Hin | now apply Z.eqb_eq].
Qed.

Lemma lookup_None (v : Z) (acc : list StakerValidatorData) :
  lookup v acc = None <-> ~ In v (map SV.validatorId acc).
Proof.
  unfold lookup. induction acc as [|d acc IH]; cbn.
  - tauto.
  - unfold sameValidator at 1. destruct (Z.eqb_spec (SV.validatorId d) v) as [E | NE].
    + split; [discriminate | intros H; exfalso; apply H; now left].
    + rewrite IH. tauto.
Qed.

Lemma lookup_NoDup (acc : list StakerValidatorData) (d : StakerValidatorData) :
  NoDup (map SV.validatorId acc) -> In d acc -> lookup (SV.validatorId d) acc = Some d.
Proof.
  unfold lookup. induction acc as [|x acc IH]; cbn; [tauto|].
  intros ND [-> | Hin].
  - unfold sameValidator. now rewrite Z.eqb_refl.
  - inversion ND as [|? ? Hx ND']; subst.
    unfold sameValidator at 1.
    destruct (Z.eqb_spec (SV.validatorId x) (SV.validatorId d)) as [E | NE].
    + exfalso. apply Hx. rewrite E. now apply in_map.
    + now apply IH.
Qed.

Section InPlace.
Variable w : Z.
Variable upd : StakerValidatorData -> StakerValidatorData.
Hypothesis upd_keeps_id : forall d, SV.validatorId (upd d) = SV.validatorId d.

Lemma ids_update_found (acc : list StakerValidatorData) :
  map SV.validatorId (update_found (sameValidator w) upd acc) = map SV.validatorId acc.
Proof.
  induction acc as [|d acc IH]; cbn; [reflexivity|].
  destruct (sameValidator w d); cbn; [now rewrite upd_keeps_id | now rewrite IH].
Qed.

Lemma lookup_update_found (v : Z) (acc : list StakerValidatorData) :
  lookup v (update_found (sameValidator w) upd acc) =
  if w =? v then option_map upd (lookup w acc) else lookup v acc.
Proof.
  unfold lookup, sameValidator. induction acc as [|d acc IH]; cbn.
  - now destruct (w =? v).
  - destruct (Z.eqb_spec (SV.validatorId d) w) as [E | NE]; cbn.
    + rewrite upd_keeps_id, E. now destruct (Z.eqb_spec w v).
    + rewrite IH. destruct (Z.eqb_spec w v) as [E' | NE']; [|reflexivity].
      subst v. now destruct (Z.eqb_spec (SV.validatorId d) w).
Qed.
End InPlace.

Lemma lookup_snoc (v : Z) (acc : list StakerValidatorData) (d : StakerValidatorData) :
  lookup v (acc ++ [d]) =
  match lookup v acc with
  | Some x => Some x
  | None => if sameValidator v d then Some d else None
  end.
Proof.
  unfold lookup. induction acc as [|x acc IH]; cbn; [reflexivity|].
  destruct (sameValidator v x); [reflexivity | exact IH].
Qed.

(** The aggregate of validator [v] after one more pool. *)
Lemma lookup_reducer (v : Z) (acc : list StakerValidatorData) (pool : StakerPoolData) :
  lookup v (reducer acc pool) =
  if inValidator v pool
  then Some (match lookup v acc with
             | Some d => merged d pool
             | None => seed pool
             end)
  else lookup v acc.
Proof.
  unfold reducer, inValidator.
  set (w := validatorId (poolKey pool)).
  destruct (find (sameValidator w) acc) as [d|] eqn:F.
  - rewrite lookup_update_found by reflexivity.
    destruct (Z.eqb_spec w v) as [<- | NE]; [|reflexivity].
    unfold lookup. now rewrite F.
  - rewrite lookup_snoc.
    destruct (Z.eqb_spec w v) as [<- | NE].
    + fold (lookup w acc) in F. rewrite F.
      unfold sameValidator, seed; cbn. fold w. now rewrite Z.eqb_refl.
    + destruct (lookup v acc); [reflexivity|].
      unfold sameValidator, seed; cbn. fold w.
      destruct (Z.eqb_spec w v); [contradiction | reflexivity].
Qed.

Lemma ids_reducer_NoDup (acc : list StakerValidatorData) (pool : StakerPoolData) :
  NoDup (map SV.validatorId acc) -> NoDup (map SV.validatorId (reducer acc pool)).
Proof.
  intros ND. unfold reducer.
  destruct (find (sameValidator (validatorId (poolKey pool))) acc) eqn:F.
  - now rewrite ids_update_found.
  - rewrite map_app; cbn.
    apply (proj1 (lookup_None _ _)) in F.
    apply Permutation_NoDup with (l := validatorId (poolKey pool) :: map SV.validatorId acc).
    + apply Permutation_cons_append.
    + now constructor.
Qed.

(** ** The fold computes the declarative view *)

Lemma aggregate_snoc (l : list StakerPoolData) (p : StakerPoolData) :
  aggregate (l ++ [p]) = reducer (aggregate l) p.
Proof. unfold aggregate. now rewrite fold_left_app. Qed.

Lemma aggregate_NoDup (l : list StakerPoolData) :
  NoDup (map SV.validatorId (aggregate l)).
Proof.
  induction l as [|p l IH] using rev_ind.
  - constructor.
  - rewrite aggregate_snoc. now apply ids_reducer_NoDup.
Qed.

Lemma constituents_snoc (v : Z) (l : list StakerPoolData) (p : StakerPoolData) :
  constituents v (l ++ [p]) =
  constituents v l ++ (if inValidator v p then [p] else []).
Proof. unfold constituents. rewrite filter_app. reflexivity. Qed.

Lemma summary_merged (v : Z) (ps : list StakerPoolData) (p : StakerPoolData) :
  inValidator v p = true ->
  Some (match summary v ps with
        | Some d => merged d p
        | None => seed p
        end) = summary v (ps ++ [p]).
Proof.
  intros Hv. apply Z.eqb_eq in Hv.
  destruct ps as [|q r].
  - unfold seed, summary, jsTotal, minZ; cbn. now rewrite Hv.
  - unfold merged, summary; cbn [app SV.validatorId SV.balance SV.totalRewarded
      SV.rewardTokenBalance SV.entryTime SV.pools].
    change (q :: r ++ [p]) with ((q :: r) ++ [p]).
    rewrite !map_app. cbn [map].
    rewrite !jsTotal_snoc by discriminate. now rewrite minZ_snoc.
Qed.

(** The aggregate found for [v] is the summary of the pools of [v]. *)
Lemma lookup_aggregate (v : Z) (l : list StakerPoolData) :
  lookup v (aggregate l) = summary v (constituents v l).
Proof.
  induction l as [|p l IH] using rev_ind.
  - reflexivity.
  - rewrite aggregate_snoc, lookup_reducer, constituents_snoc, IH.
    destruct (inValidator v p) eqn:Hv.
    + now apply summary_merged.
    + now rewrite app_nil_r.
Qed.

Lemma aggregate_member (l : list StakerPoolData) (d : StakerValidatorData) :
  In d (aggregate l) ->
  summary (SV.validatorId d) (constituents (SV.validatorId d) l) = Some d.
Proof.
  intros Hd. rewrite <- lookup_aggregate.
  apply lookup_NoDup; [apply aggregate_NoDup | exact Hd].
Qed.

Lemma constituents_nil_iff (v : Z) (l : list StakerPoolData) :
  constituents v l = [] <-> ~ In v (map (fun p => validatorId (poolKey p)) l).
Proof.
  unfold constituents, inValidator. induction l as [|p l IH]; cbn; [tauto|].
  destruct (Z.eqb_spec (validatorId (poolKey p)) v) as [E | NE].
  - split; [discriminate | intros H; exfalso; apply H; now left].
  - rewrite IH. tauto.
Qed.

Lemma summary_sound (v : Z) (ps : list StakerPoolData) (d : StakerValidatorData) :
  summary v ps = Some d ->
  SV.validatorId d = v /\ SV.pools d = ps /\ ps <> [] /\
  SV.balance d = jsTotal (map balance ps) /\
  SV.totalRewarded d = jsTotal (map totalRewarded ps) /\
  SV.rewardTokenBalance d = jsTotal (map rewardTokenBalance ps) /\
  In (SV.entryTime d) (map entryTime ps) /\
  (forall p, In p ps -> SV.entryTime d <= entryTime p).
Proof.
  destruct ps as [|q r]; cbn; [discriminate|].
  intros [= <-]; cbn.
  repeat split; try discriminate.
  - apply (minZ_In (entryTime q) (map entryTime r)).
  - intros p [<- | Hp]; [apply minZ_le_head | apply minZ_le_In; now apply in_map].
Qed.

(** C2, amended.  Every aggregate that [fetchStakerValidatorData]
    produces holds exactly the pools of its validator, in input order,
    and its entry time is their least entry time; its balance, rewards
    and reward-token balance are the totals the program adds up from
    the left as numbers, which are the sums whenever the amounts of
    these pools are not negative and sum to at most 2^53; and the output
    has one aggregate for each validator id of the input and no two for
    the same id. *)
Theorem aggregate_invariant (allPools : list StakerPoolData) :
  (forall d, In d (aggregate allPools) ->
     SV.pools d = constituents (SV.validatorId d) allPools /\
     SV.pools d <> [] /\
     SV.balance d = jsTotal (map balance (SV.pools d)) /\
     SV.totalRewarded d = jsTotal (map totalRewarded (SV.pools d)) /\
     SV.rewardTokenBalance d = jsTotal (map rewardTokenBalance (SV.pools d)) /\
     (exactSum (map balance (SV.pools d)) ->
        SV.balance d = sumZ (map balance (SV.pools d))) /\
     (exactSum (map totalRewarded (SV.pools d)) ->
        SV.totalRewarded d = sumZ (map totalRewarded (SV.pools d))) /\
     (exactSum (map rewardTokenBalance (SV.pools d)) ->
        SV.rewardTokenBalance d = sumZ (map rewardTokenBalance (SV.pools d))) /\
     In (SV.entryTime d) (map entryTime (SV.pools d)) /\
     (forall p, In p (SV.pools d) -> SV.entryTime d <= entryTime p)) /\
  NoDup (map SV.validatorId (aggregate allPools)) /\
  (forall v, In v (map SV.validatorId (aggregate allPools)) <->
             In v (map (fun p => validatorId (poolKey p)) allPools)).
Proof.
  split; [|split].
  - intros d Hd.
    pose proof (aggregate_member _ _ Hd) as L.
    apply summary_sound in L.
    destruct L as (_ & Hp & Hne & Hb & Ht & Hr & Hin & Hle).
    rewrite Hp.
    repeat split; try assumption.
    + intros E. rewrite Hb. now apply jsTotal_exact.
    + intros E. rewrite Ht. now apply jsTotal_exact.
    + intros E. rewrite Hr. now apply jsTotal_exact.
  - apply aggregate_NoDup.
  - intros v.
    pose proof (lookup_None v (aggregate allPools)) as HN.
    pose proof (constituents_nil_iff v allPools) as HC.
    rewrite lookup_aggregate in HN.
    destruct (constituents v allPools) as [|q r] eqn:E; cbn in HN.
    + split; intros H.
      * exfalso. now apply (proj1 HN).
      * exfalso. now apply (proj1 HC).
    + split; intros H.
      * destruct (in_dec Z.eq_dec v (map (fun p => validatorId (poolKey p)) allPools))
          as [Hin | Hnin]; [exact Hin|].
        apply (proj2 HC) in Hnin. discriminate.
      * destruct (in_dec Z.eq_dec v (map SV.validatorId (aggregate allPools)))
          as [Hin | Hnin]; [exact Hin|].
        apply (proj2 HN) in Hnin. discriminate.
Qed.

Lemma aggregate_invariant_witness :
  let a := mkPool "S" 100 5 0 1000 (mkPoolKey 7 1 501) in
  let b := mkPool "S" 50 1 2 2000 (mkPoolKey 7 2 502) in
  let c := mkPool "S" 30 0 0 500 (mkPoolKey 9 1 601) in
  let d := SV.mk 7 150 6 2 1000 [a; b] in
  In d (aggregate [a; c; b]) /\
  SV.pools d = constituents 7 [a; c; b] /\
  SV.balance d = sumZ (map balance (SV.pools d)) /\
  NoDup (map SV.validatorId (aggregate [a; c; b])).
Proof.
  intros a b c d.
  destruct (aggregate_invariant [a; c; b]) as (H & ND & _).
  assert (Hd : In d (aggregate [a; c; b])) by (left; reflexivity).
  destruct (H d Hd) as (Hp & _ & _ & _ & _ & Hb & _).
  split; [exact Hd|]. split; [exact Hp|]. split; [|exact ND].
  apply Hb. split; [repeat constructor; cbn; lia | vm_compute; discriminate].
Defined.

(** Two pools of validator 7 with reward-token balances 2^53 - 1 and 2,
    and three with 2^53, 1 and 1. *)
Definition nearLimit : list StakerPoolData :=
  [mkPool "S" 100 0 9007199254740991 1000 (mkPoolKey 7 1 501);
   mkPool "S" 50 0 2 2000 (mkPoolKey 7 2 502)].

Definition largeFirst : list StakerPoolData :=
  [mkPool "S" 0 0 9007199254740992 1000 (mkPoolKey 7 1 501);
   mkPool "S" 0 0 1 2000 (mkPoolKey 7 2 502);
   mkPool "S" 0 0 1 3000 (mkPoolKey 7 3 503)].

Definition largeLast : list StakerPoolData :=
  [mkPool "S" 0 0 1 2000 (mkPoolKey 7 2 502);
   mkPool "S" 0 0 1 3000 (mkPoolKey 7 3 503);
   mkPool "S" 0 0 9007199254740992 1000 (mkPoolKey 7 1 501)].

(** C2, as stated, fails: for reward-token balances 2^53 - 1 and 2 in
    two pools of one validator the aggregate holds 2^53, which is not
    their sum 2^53 + 1. *)
Lemma aggregate_sum_rounds :
  exists d,
    In d (aggregate nearLimit) /\
    SV.pools d = nearLimit /\
    SV.rewardTokenBalance d = 9007199254740992 /\
    sumZ (map rewardTokenBalance (SV.pools d)) = 9007199254740993 /\
    SV.rewardTokenBalance d <> sumZ (map rewardTokenBalance (SV.pools d)).
Proof.
  eexists. split; [left; reflexivity|].
  repeat split; vm_compute; discriminate.
Qed.

(** The specification's scenario: 100 units in pool A and 50 in pool B of
    validator 7, entered at 1000 and 2000. *)
Example aggregate_validator_7 :
  let a := mkPool "S" 100 0 0 1000 (mkPoolKey 7 1 501) in
  let b := mkPool "S" 50 0 0 2000 (mkPoolKey 7 2 502) in
  aggregate [a; b] = [SV.mk 7 150 0 0 1000 [a; b]].
Proof. reflexivity. Qed.

(** ** Order independence *)

Lemma constituents_perm (v : Z) (l1 l2 : list StakerPoolData) :
  Permutation l1 l2 -> Permutation (constituents v l1) (constituents v l2).
Proof.
  unfold constituents.
  induction 1 as [| x l l' _ IH | x y l | l l' l'' _ IH1 _ IH2]; cbn.
  - constructor.
  - destruct (inValidator v x); [now constructor | exact IH].
  - destruct (inValidator v x), (inValidator v y);
      try apply Permutation_refl; apply perm_swap.
  - now apply Permutation_trans with (l' := filter (inValidator v) l').
Qed.

Lemma jsTotal_perm (f : StakerPoolData -> Z) (ps qs : list StakerPoolData) :
  Permutation ps qs -> exactSum (map f ps) ->
  jsTotal (map f ps) = jsTotal (map f qs).
Proof.
  intros P E.
  pose proof (Permutation_map f P) as Pf.
  rewrite (jsTotal_exact E), (jsTotal_exact (exactSum_perm Pf E)).
  now apply sumZ_perm.
Qed.

Lemma summary_perm (v : Z) (ps qs : list StakerPoolData) :
  Permutation ps qs ->
  option_map SV.entryTime (summary v ps) = option_map SV.entryTime (summary v qs) /\
  (summary v ps = None <-> summary v qs = None) /\
  (exactSum (map balance ps) ->
     option_map SV.balance (summary v ps) = option_map SV.balance (summary v qs)) /\
  (exactSum (map totalRewarded ps) ->
     option_map SV.totalRewarded (summary v ps)
       = option_map SV.totalRewarded (summary v qs)) /\
  (exactSum (map rewardTokenBalance ps) ->
     option_map SV.rewardTokenBalance (summary v ps)
       = option_map SV.rewardTokenBalance (summary v qs)).
Proof.
  intros HP.
  destruct ps as [|p ps], qs as [|q qs].
  - repeat split; reflexivity || tauto.
  - apply Permutation_nil in HP. discriminate.
  - apply Permutation_sym, Permutation_nil in HP. discriminate.
  - unfold summary, option_map; cbn [SV.balance SV.totalRewarded
      SV.rewardTokenBalance SV.entryTime].
    split; [|split; [|split; [|split]]].
    + now rewrite (minZ_perm (l1 := map entryTime ps) (l2 := map entryTime qs)
                     (Permutation_map entryTime HP)).
    + split; discriminate.
    + intros E. f_equal. now apply jsTotal_perm.
    + intros E. f_equal. now apply jsTotal_perm.
    + intros E. f_equal. now apply jsTotal_perm.
Qed.

(** C7, amended.  For two inputs that are permutations of each other
    the fold gives, for every validator id, an aggregate for the one
    exactly when for the other, with the same entry time, and with the
    same balance, rewards and reward-token balance whenever the
    validator's amounts are not negative and sum to at most 2^53; the
    list of pools of each aggregate is the sub-list of its own input, in
    that input's order. *)
Theorem aggregate_permutation (l1 l2 : list StakerPoolData) :
  Permutation l1 l2 ->
  (forall v,
     option_map SV.entryTime (lookup v (aggregate l1))
       = option_map SV.entryTime (lookup v (aggregate l2)) /\
     (lookup v (aggregate l1) = None <-> lookup v (aggregate l2) = None) /\
     (exactSum (map balance (constituents v l1)) ->
        option_map SV.balance (lookup v (aggregate l1))
          = option_map SV.balance (lookup v (aggregate l2))) /\
     (exactSum (map totalRewarded (constituents v l1)) ->
        option_map SV.totalRewarded (lookup v (aggregate l1))
          = option_map SV.totalRewarded (lookup v (aggregate l2))) /\
     (exactSum (map rewardTokenBalance (constituents v l1)) ->
        option_map SV.rewardTokenBalance (lookup v (aggregate l1))
          = option_map SV.rewardTokenBalance (lookup v (aggregate l2)))) /\
  (forall v d, lookup v (aggregate l1) = Some d -> SV.pools d = constituents v l1) /\
  (forall v d, lookup v (aggregate l2) = Some d -> SV.pools d = constituents v l2).
Proof.
  intros HP. split; [|split].
  - intros v. rewrite !lookup_aggregate.
    apply summary_perm. now apply constituents_perm.
  - intros v d H. rewrite lookup_aggregate in H. now apply summary_sound in H.
  - intros v d H. rewrite lookup_aggregate in H. now apply summary_sound in H.
Qed.

Lemma aggregate_permutation_witness :
  let a := mkPool "S" 100 5 0 1000 (mkPoolKey 7 1 501) in
  let b := mkPool "S" 50 1 2 2000 (mkPoolKey 7 2 502) in
  let c := mkPool "S" 30 0 0 500 (mkPoolKey 9 1 601) in
  Permutation [a; c; b] [b; a; c] /\
  option_map SV.balance (lookup 7 (aggregate [a; c; b])) = Some 150 /\
  option_map SV.balance (lookup 7 (aggregate [b; a; c])) = Some 150 /\
  option_map SV.entryTime (lookup 7 (aggregate [b; a; c])) = Some 1000 /\
  option_map SV.pools (lookup 7 (aggregate [a; c; b])) = Some [a; b] /\
  option_map SV.pools (lookup 7 (aggregate [b; a; c])) = Some [b; a].
Proof.
  intros a b c.
  assert (P : Permutation [a; c; b] [b; a; c]).
  { apply Permutation_trans with (l' := [a; b; c]).
    - apply perm_skip, perm_swap.
    - apply perm_swap. }
  pose proof (aggregate_permutation P) as [H _].
  destruct (H 7) as (He & _ & Hb & _).
  split; [exact P|].
  split; [reflexivity|].
  split; [rewrite <- Hb; [reflexivity|]|].
  { split; [repeat constructor; cbn; lia | vm_compute; discriminate]. }
  split; [rewrite <- He; reflexivity|].
  split; reflexivity.
Defined.

(** C7, as stated, fails: with reward-token balances 2^53, 1 and 1 in
    three pools of one validator, the aggregate holds 2^53 when the
    large one comes first ((2^53 + 1) + 1, each step rounding down) and
    2^53 + 2 when it comes last ((1 + 1) + 2^53). *)
Lemma aggregate_order_dependent :
  Permutation largeFirst largeLast /\
  option_map SV.rewardTokenBalance (lookup 7 (aggregate largeFirst))
    = Some 9007199254740992 /\
  option_map SV.rewardTokenBalance (lookup 7 (aggregate largeLast))
    = Some 9007199254740994 /\
  option_map SV.rewardTokenBalance (lookup 7 (aggregate largeFirst))
    <> option_map SV.rewardTokenBalance (lookup 7 (aggregate largeLast)).
Proof.
  split.
  - unfold largeFirst, largeLast.
    match goal with
    | |- Permutation [?a; ?b; ?c] _ =>
        apply Permutation_trans with (l' := [b; a; c]);
          [apply perm_swap | apply perm_skip, perm_swap]
    end.
  - repeat split; vm_compute; discriminate.
Qed.

(** ** The order of the aggregates, and what the fold conserves *)

Lemma ids_reducer (acc : list StakerValidatorData) (pool : StakerPoolData) :
  map SV.validatorId (reducer acc pool) =
  match lookup (validatorId (poolKey pool)) acc with
  | Some _ => map SV.validatorId acc
  | None => map SV.validatorId acc ++ [validatorId (poolKey pool)]
  end.
Proof.
  unfold reducer, lookup.
  destruct (find (sameValidator (validatorId (poolKey pool))) acc).
  - now rewrite ids_update_found.
  - now rewrite map_app.
Qed.

(** The aggregates come in the order in which their validators first
    occur in the input: no sorting, no reordering by later pools. *)
Lemma aggregate_order (allPools : list StakerPoolData) :
  map SV.validatorId (aggregate allPools) =
  rev (nodup Z.eq_dec (rev (map (fun p => validatorId (poolKey p)) allPools))).
Proof.
  induction allPools as [|p l IH] using rev_ind; [reflexivity|].
  rewrite aggregate_snoc, ids_reducer, map_app, rev_app_distr.
  cbn [map rev app nodup].
  set (v := validatorId (poolKey p)).
  set (ids := rev (map (fun p => validatorId (poolKey p)) l)) in *.
  destruct (in_dec Z.eq_dec v ids) as [Hin | Hnin].
  - destruct (lookup v (aggregate l)) eqn:L; [exact IH|].
    exfalso. apply (proj1 (lookup_None _ _)) in L. apply L.
    rewrite IH. apply -> in_rev. now apply nodup_In.
  - destruct (lookup v (aggregate l)) as [d|] eqn:L.
    + exfalso. apply Hnin. apply lookup_Some in L. destruct L as [Hd Hv].
      apply (in_map SV.validatorId) in Hd. rewrite Hv, IH in Hd.
      apply in_rev in Hd. now apply nodup_In in Hd.
    + cbn [rev]. now rewrite IH.
Qed.

Lemma pools_update_found (pred : StakerValidatorData -> bool)
    (pool : StakerPoolData) (acc : list StakerValidatorData)
    (d : StakerValidatorData) :
  find pred acc = Some d ->
  Permutation (flat_map SV.pools (update_found pred (fun d => merged d pool) acc))
              (pool :: flat_map SV.pools acc).
Proof.
  induction acc as [|x acc IH]; cbn [find update_found]; [discriminate|].
  destruct (pred x).
  - intros _. cbn [flat_map merged SV.pools]. rewrite <- app_assoc.
    apply Permutation_sym, Permutation_middle.
  - intros H. cbn [flat_map].
    apply Permutation_trans with (l' := SV.pools x ++ pool :: flat_map SV.pools acc).
    + apply Permutation_app_head. now apply IH.
    + apply Permutation_sym, Permutation_middle.
Qed.

Lemma pools_reducer (acc : list StakerValidatorData) (pool : StakerPoolData) :
  Permutation (flat_map SV.pools (reducer acc pool))
              (pool :: flat_map SV.pools acc).
Proof.
  unfold reducer.
  destruct (find (sameValidator (validatorId (poolKey pool))) acc) as [d|] eqn:F.
  - now apply pools_update_found with (d := d).
  - rewrite flat_map_app. cbn [flat_map seed SV.pools app].
    apply Permutation_sym, Permutation_cons_append.
Qed.

Lemma sumZ_flat_map (f : StakerPoolData -> Z) (acc : list StakerValidatorData) :
  sumZ (map f (flat_map SV.pools acc))
  = sumZ (map (fun d => sumZ (map f (SV.pools d))) acc).
Proof.
  induction acc as [|d acc IH]; [reflexivity|].
  cbn [flat_map map]. rewrite map_app, sumZ_app, sumZ_cons, IH. reflexivity.
Qed.

Lemma aggregate_total (F : StakerValidatorData -> Z) (f : StakerPoolData -> Z)
    (allPools : list StakerPoolData) :
  (forall d, In d (aggregate allPools) -> F d = jsTotal (map f (SV.pools d))) ->
  (forall d, In d (aggregate allPools) ->
     SV.pools d = constituents (SV.validatorId d) allPools) ->
  Permutation (flat_map SV.pools (aggregate allPools)) allPools ->
  exactSum (map f allPools) ->
  sumZ (map F (aggregate allPools)) = sumZ (map f allPools).
Proof.
  intros HF Hpools HP E.
  rewrite <- (sumZ_perm (Permutation_map f HP)), sumZ_flat_map.
  f_equal. apply map_ext_in. intros d Hd.
  rewrite (HF d Hd). apply jsTotal_exact.
  rewrite (Hpools d Hd). unfold constituents.
  now apply exactSum_filter.
Qed.

(** The fold neither loses nor duplicates anything: the pools lists of
    the aggregates together are a rearrangement of the input; and when
    the amounts of the input are not negative and sum to at most 2^53,
    the balances, rewards and reward-token balances of the aggregates
    add up to those of the input. *)
Lemma aggregate_conserves (allPools : list StakerPoolData) :
  Permutation (flat_map SV.pools (aggregate allPools)) allPools /\
  (exactSum (map balance allPools) ->
     sumZ (map SV.balance (aggregate allPools)) = sumZ (map balance allPools)) /\
  (exactSum (map totalRewarded allPools) ->
     sumZ (map SV.totalRewarded (aggregate allPools))
       = sumZ (map totalRewarded allPools)) /\
  (exactSum (map rewardTokenBalance allPools) ->
     sumZ (map SV.rewardTokenBalance (aggregate allPools))
       = sumZ (map rewardTokenBalance allPools)).
Proof.
  assert (HP : Permutation (flat_map SV.pools (aggregate allPools)) allPools).
  { induction allPools as [|p l IH] using rev_ind; [constructor|].
    rewrite aggregate_snoc.
    apply Permutation_trans with (l' := p :: flat_map SV.pools (aggregate l)).
    - apply pools_reducer.
    - apply Permutation_trans with (l' := p :: l);
        [now constructor | apply Permutation_cons_append]. }
  assert (HS : forall d, In d (aggregate allPools) ->
                 SV.pools d = constituents (SV.validatorId d) allPools /\
                 SV.balance d = jsTotal (map balance (SV.pools d)) /\
                 SV.totalRewarded d = jsTotal (map totalRewarded (SV.pools d)) /\
                 SV.rewardTokenBalance d
                   = jsTotal (map rewardTokenBalance (SV.pools d))).
  { intros d Hd. pose proof (aggregate_member _ _ Hd) as L.
    apply summary_sound in L. destruct L as (_ & Hp & _ & Hb & Ht & Hr & _).
    rewrite Hp. auto. }
  split; [exact HP|].
  split; [|split]; intros E;
    apply aggregate_total; try assumption; intros d Hd; now apply HS.
Qed.

Lemma aggregate_conserves_witness :
  sumZ (map SV.balance (aggregate nearLimit)) = 150 /\
  Permutation (flat_map SV.pools (aggregate nearLimit)) nearLimit.
Proof.
  destruct (aggregate_conserves nearLimit) as (HP & Hb & _).
  split; [|exact HP].
  rewrite Hb; [reflexivity|].
  split; [repeat constructor; cbn; lia | vm_compute; discriminate].
Defined.

End Aggregator.

(* ================================================================== *)
(** * Promises and gateway results *)
(* ================================================================== *)

Module Async.

(** What a rejected promise (a [throw] in an [async] function) carries. *)
Inductive Error : Type :=
| ValidatorNotFoundError (validatorId : Z)
| TypeError
| GatewayError (code : nat).

(** A settled promise. *)
Inductive Promise (A : Type) : Type :=
| Resolved (value : A)
| Rejected (reason : Error).

Arguments Resolved {A} value.
Arguments Rejected {A} reason.

Definition then_ {A B : Type} (p : Promise A) (k : A -> Promise B) : Promise B :=
  match p with
  | Resolved a => k a
  | Rejected e => Rejected e
  end.

(** [Promise.all] over an array of promises: the array of the values
    when every promise resolves, a rejection as soon as one rejects.
    Which of several rejections comes first is a matter of timing; the
    model takes the leftmost one, and no statement below depends on that
    choice. *)
Fixpoint promise_all {A : Type} (ps : list (Promise A)) : Promise (list A) :=
  match ps with
  | [] => Resolved []
  | Resolved a :: rest =>
      match promise_all rest with
      | Resolved l => Resolved (a :: l)
      | Rejected e => Rejected e
      end
  | Rejected e :: _ => Rejected e
  end.

(** [Promise.all] over a tuple, two promises at a time. *)
Definition both {A B : Type} (p : Promise A) (q : Promise B) : Promise (A * B) :=
  match p, q with
  | Resolved a, Resolved b => Resolved (a, b)
  | Rejected e, _ => Rejected e
  | Resolved _, Rejected e => Rejected e
  end.

(** The object a [.simulate(...)] call resolves to: [returns] may be
    missing, and an entry of it may be [undefined]. *)
Record SimulateResult (T : Type) : Type := mkSimulateResult {
  returns : option (list (option T))
}.

Arguments mkSimulateResult {T} returns.

(** [result.returns?.[0]] *)
Definition returns_opt0 {T : Type} (r : SimulateResult T) : option T :=
  match returns r with
  | Some (Some x :: _) => Some x
  | _ => None
  end.

(** [result.returns![0]]: reading index 0 of [undefined] throws. *)
Definition returns_bang0 {T : Type} (r : SimulateResult T) : Promise (option T) :=
  match returns r with
  | None => Rejected TypeError
  | Some (x :: _) => Resolved x
  | Some [] => Resolved None
  end.

Lemma promise_all_resolved {A B : Type} (f : A -> B) (l : list A) :
  promise_all (map (fun a => Resolved (f a)) l) = Resolved (map f l).
Proof. induction l as [|a l IH]; cbn; [reflexivity | now rewrite IH]. Qed.

Lemma promise_all_rejects {A : Type} (ps : list (Promise A)) :
  (exists e, In (Rejected e) ps) -> exists e, promise_all ps = Rejected e.
Proof.
  induction ps as [|p ps IH]; intros [e H]; cbn in H; [contradiction|].
  destruct p as [a | e'].
  - destruct H as [H | H]; [discriminate|].
    destruct (IH (ex_intro _ e H)) as [e0 E]. exists e0. cbn. now rewrite E.
  - exists e'. reflexivity.
Qed.

Lemma promise_all_values {A : Type} (ps : list (Promise A)) (l : list A) :
  promise_all ps = Resolved l -> ps = map Resolved l.
Proof.
  revert l. induction ps as [|p ps IH]; cbn; intros l H.
  - now injection H as <-.
  - destruct p as [a | e]; [|discriminate].
    destruct (promise_all ps) as [l' | e]; [|discriminate].
    injection H as <-. cbn. now rewrite (IH l' eq_refl).
Qed.

End Async.

(* ================================================================== *)
(** * The batch loop of [fetchValidators] and [fetchStakerValidatorData] *)
(* ================================================================== *)

Module Batch.

Import Async.
Open Scope nat_scope.

(** What the loop does towards the gateway, in program order: a request
    is issued when its promise is created; [Awaited] marks the return of
    [await Promise.all(batchPromises)]. *)
Inductive Event : Type :=
| Issued (position : nat)
| Awaited.

Definition batchSize : nat := 10.

Section Loop.

Variable V : Type.

(** [n]: [poolKeys.length], or [numValidators]. *)
Variable n : nat.

(** The promise created for position [i + index] of the input. *)
Variable job : nat -> Promise V.

(** What is done to the array [Promise.all] resolves to before it is
    pushed: nothing in [fetchStakerValidatorData], the [filter] of the
    defined entries in [fetchValidators]. *)
Variable post : list V -> list V.

(** [for (let i = 0; i < n; i += batchSize) { ... }], with the log.
    [None] only when the fuel runs out. *)
Fixpoint batchLoop (fuel i : nat) (all : list V) (log : list Event)
  : option (Promise (list V) * list Event) :=
  match fuel with
  | O => None
  | S fuel' =>
      if i <? n then
        let positions :=
          map (fun index => i + index) (seq 0 (Nat.min batchSize (n - i))) in
        let batchPromises := map job positions in
        let log' := log ++ map Issued positions in
        match promise_all batchPromises with
        | Rejected e => Some (Rejected e, log')
        | Resolved batchResults =>
            batchLoop fuel' (i + batchSize) (all ++ post batchResults)
                      (log' ++ [Awaited])
        end
      else Some (Resolved all, log)
  end.

(** One more unit of fuel than there are inputs always suffices. *)
Definition runBatches : option (Promise (list V) * list Event) :=
  batchLoop (S n) 0 [] [].

End Loop.

(** ** The schedule in the words of the specification *)

(** The number of batches for [n] inputs. *)
Definition batchCount (n : nat) : nat := (n + 9) / 10.

(** The positions of batch [k]: ten of them, or what is left. *)
Definition batch (n k : nat) : list nat :=
  seq (batchSize * k) (Nat.min batchSize (n - batchSize * k)).

(** Batches [k], [k+1], ... up to the last one. *)
Definition batchesFrom (n k : nat) : list (list nat) :=
  map (batch n) (seq k (batchCount n - k)).

Definition batches (n : nat) : list (list nat) := batchesFrom n 0.

(** Each batch is issued as a whole and awaited before the next one. *)
Definition logOf (bs : list (list nat)) : list Event :=
  flat_map (fun b => map Issued b ++ [Awaited]) bs.

(** A log is in order when every request of batch [k] is issued after
    exactly [k] batches have been awaited. *)
Fixpoint inOrder (awaited : nat) (log : list Event) : bool :=
  match log with
  | [] => true
  | Issued position :: rest =>
      (position / batchSize =? awaited) && inOrder awaited rest
  | Awaited :: rest => inOrder (S awaited) rest
  end.

Definition awaitedCount (log : list Event) : nat :=
  length (filter (fun e => match e with Awaited => true | Issued _ => false end) log).

(** ** Arithmetic of the schedule *)

Lemma batchCount_le (n k : nat) : batchSize * k < n -> k < batchCount n.
Proof.
  unfold batchCount, batchSize. intros H.
  pose proof (Nat.div_mod_eq (n + 9) 10).
  pose proof (Nat.mod_upper_bound (n + 9) 10). lia.
Qed.

Lemma batchCount_ge (n k : nat) : n <= batchSize * k -> batchCount n <= k.
Proof.
  unfold batchCount, batchSize. intros H.
  pose proof (Nat.div_mod_eq (n + 9) 10).
  pose proof (Nat.mod_upper_bound (n + 9) 10). lia.
Qed.

Lemma batchesFrom_step (n k : nat) :
  batchSize * k < n -> batchesFrom n k = batch n k :: batchesFrom n (S k).
Proof.
  intros H. apply batchCount_le in H. unfold batchesFrom.
  replace (batchCount n - k) with (S (batchCount n - S k)) by lia.
  reflexivity.
Qed.

Lemma batchesFrom_done (n k : nat) : n <= batchSize * k -> batchesFrom n k = [].
Proof.
  intros H. apply batchCount_ge in H. unfold batchesFrom.
  now replace (batchCount n - k) with 0 by lia.
Qed.

Lemma length_batches (n : nat) : length (batches n) = batchCount n.
Proof.
  unfold batches, batchesFrom. now rewrite length_map, length_seq, Nat.sub_0_r.
Qed.

(** A full batch holds ten positions; the last one holds [n mod 10] when
    that is not zero. *)
Lemma length_batch (n k : nat) :
  k < batchCount n ->
  length (batch n k) =
  if (S k <? batchCount n) || (n mod batchSize =? 0) then batchSize
  else n mod batchSize.
Proof.
  unfold batch, batchCount, batchSize. rewrite length_seq. intros H.
  pose proof (Nat.div_mod_eq (n + 9) 10).
  pose proof (Nat.mod_upper_bound (n + 9) 10).
  pose proof (Nat.div_mod_eq n 10).
  pose proof (Nat.mod_upper_bound n 10).
  destruct (Nat.ltb_spec (S k) ((n + 9) / 10));
    destruct (Nat.eqb_spec (n mod 10) 0); cbn [orb]; lia.
Qed.

Lemma nth_batches (n k : nat) :
  k < batchCount n -> nth k (batches n) [] = batch n k.
Proof.
  intros H. unfold batches, batchesFrom. rewrite Nat.sub_0_r.
  rewrite nth_indep with (d' := batch n 0) by (now rewrite length_map, length_seq).
  rewrite map_nth with (d := 0). now rewrite seq_nth.
Qed.

Lemma map_add_seq (i len : nat) :
  map (fun index => i + index) (seq 0 len) = seq i len.
Proof.
  revert i. induction len as [|len IH]; intros i; cbn [seq map]; [reflexivity|].
  rewrite Nat.add_0_r. f_equal.
  rewrite <- seq_shift, map_map, <- (IH (S i)).
  apply map_ext. intros a. lia.
Qed.

Lemma batch_positions (n k : nat) (j : nat) :
  In j (batch n k) -> j < n /\ j / batchSize = k.
Proof.
  unfold batch, batchSize. rewrite in_seq. intros [Hlo Hhi].
  split; [lia|].
  symmetry. apply Nat.div_unique with (r := j - 10 * k); lia.
Qed.

Lemma seq_batch_split (n k : nat) :
  seq (batchSize * k) (n - batchSize * k) =
  batch n k ++ seq (batchSize * S k) (n - batchSize * S k).
Proof.
  unfold batch, batchSize.
  destruct (le_lt_dec 10 (n - 10 * k)) as [Hfull | Hlast].
  - replace (Nat.min 10 (n - 10 * k)) with 10 by lia.
    replace (10 * S k) with (10 * k + 10) by lia.
    rewrite <- seq_app. f_equal. lia.
  - replace (Nat.min 10 (n - 10 * k)) with (n - 10 * k) by lia.
    replace (n - 10 * S k) with 0 by lia.
    cbn [seq]. now rewrite app_nil_r.
Qed.

(** ** The log of a run is in order *)

Lemma inOrder_batch (a : nat) (b : list nat) (rest : list Event) :
  (forall j, In j b -> j / batchSize = a) ->
  inOrder a (map Issued b ++ Awaited :: rest) = inOrder (S a) rest.
Proof.
  induction b as [|j b IH]; intros H; cbn [map app inOrder]; [reflexivity|].
  rewrite (H j (or_introl eq_refl)), Nat.eqb_refl. cbn [andb].
  apply IH. intros j' Hj'. apply H. now right.
Qed.

Lemma inOrder_batchesFrom (n : nat) (d k : nat) :
  batchCount n - k = d -> inOrder k (logOf (batchesFrom n k)) = true.
Proof.
  revert k. induction d as [|d IH]; intros k Hd.
  - unfold batchesFrom. rewrite Hd. reflexivity.
  - unfold batchesFrom. rewrite Hd. cbn [seq map logOf flat_map].
    rewrite <- app_assoc. cbn [app].
    rewrite inOrder_batch.
    + specialize (IH (S k) ltac:(lia)). unfold batchesFrom, logOf in IH.
      replace (batchCount n - S k) with d in IH by lia. exact IH.
    + intros j Hj. now apply batch_positions in Hj.
Qed.

Lemma awaitedCount_app (l1 l2 : list Event) :
  awaitedCount (l1 ++ l2) = awaitedCount l1 + awaitedCount l2.
Proof. unfold awaitedCount. now rewrite filter_app, length_app. Qed.

Lemma awaitedCount_issued (b : list nat) : awaitedCount (map Issued b) = 0.
Proof. unfold awaitedCount. induction b as [|j b IH]; cbn; [reflexivity | exact IH]. Qed.

Lemma inOrder_app (a : nat) (l1 l2 : list Event) :
  inOrder a (l1 ++ l2) = inOrder a l1 && inOrder (a + awaitedCount l1) l2.
Proof.
  revert a. induction l1 as [|e l1 IH]; intros a.
  - cbn. now rewrite Nat.add_0_r.
  - destruct e as [position|]; cbn [app inOrder].
    + rewrite IH, andb_assoc. reflexivity.
    + rewrite IH. unfold awaitedCount. cbn [filter length].
      now rewrite Nat.add_succ_r.
Qed.

Lemma inOrder_issued (a : nat) (b : list nat) :
  (forall j, In j b -> j / batchSize = a) -> inOrder a (map Issued b) = true.
Proof.
  induction b as [|j b IH]; intros H; cbn [map inOrder]; [reflexivity|].
  rewrite (H j (or_introl eq_refl)), Nat.eqb_refl. cbn [andb].
  apply IH. intros j' Hj'. apply H. now right.
Qed.

Lemma awaitedCount_logOf (bs : list (list nat)) :
  awaitedCount (logOf bs) = length bs.
Proof.
  unfold awaitedCount, logOf.
  induction bs as [|b bs IH]; cbn [flat_map length]; [reflexivity|].
  rewrite !filter_app, !length_app, IH. cbn [filter length].
  replace (filter _ (map Issued b)) with (@nil Event); [reflexivity|].
  induction b as [|j b IHb]; cbn; [reflexivity | exact IHb].
Qed.

(** ** Runs in which every read resolves *)

Section Resolving.

Variable V : Type.
Variable n : nat.
Variable job : nat -> Promise V.
Variable post : list V -> list V.
Variable v : nat -> V.

Hypothesis job_resolves : forall j, j < n -> job j = Resolved (v j).
Hypothesis post_keeps : forall l, incl l (map v (seq 0 n)) -> post l = l.

Lemma batch_resolves (k : nat) :
  promise_all (map job (batch n k)) = Resolved (map v (batch n k)).
Proof.
  rewrite <- promise_all_resolved. f_equal.
  apply map_ext_in. intros j Hj. apply job_resolves.
  now apply batch_positions in Hj.
Qed.

Lemma batch_kept (k : nat) : post (map v (batch n k)) = map v (batch n k).
Proof.
  apply post_keeps. intros x Hx.
  apply in_map_iff in Hx. destruct Hx as (j & <- & Hj).
  apply in_map, in_seq. apply batch_positions in Hj. lia.
Qed.

Lemma batchLoop_resolves (fuel k : nat) (all : list V) (log : list Event) :
  batchCount n - k < fuel ->
  batchLoop n job post fuel (batchSize * k) all log =
  Some (Resolved (all ++ map v (seq (batchSize * k) (n - batchSize * k))),
        log ++ logOf (batchesFrom n k)).
Proof.
  revert k all log. induction fuel as [|fuel IH]; intros k all log Hf; [lia|].
  cbn [batchLoop].
  destruct (Nat.ltb_spec (batchSize * k) n) as [Hlt | Hge].
  - rewrite map_add_seq. fold (batch n k).
    rewrite batch_resolves, batch_kept.
    replace (batchSize * k + batchSize) with (batchSize * S k) by lia.
    pose proof (@batchCount_le n k Hlt) as Hk.
    rewrite IH by lia.
    rewrite (@batchesFrom_step n k Hlt). cbn [logOf flat_map].
    rewrite <- !app_assoc. rewrite <- map_app, <- seq_batch_split.
    reflexivity.
  - rewrite (@batchesFrom_done n k Hge). cbn [logOf flat_map].
    replace (n - batchSize * k) with 0 by lia.
    cbn [seq map]. now rewrite !app_nil_r.
Qed.

Lemma runBatches_resolves :
  runBatches n job post = Some (Resolved (map v (seq 0 n)), logOf (batches n)).
Proof.
  unfold runBatches. change 0 with (batchSize * 0) at 1.
  rewrite batchLoop_resolves
    by (unfold batchCount; pose proof (Nat.div_mod_eq (n + 9) 10);
        pose proof (Nat.mod_upper_bound (n + 9) 10); lia).
  cbn [app]. now rewrite Nat.mul_0_r, Nat.sub_0_r.
Qed.

End Resolving.

(** C4.  When every read resolves, the loop returns the [n] results in
    the order of the input, having issued the requests in batches of
    ten (the last batch holding [n mod 10] of them when that is not
    zero), each batch awaited before the first request of the next is
    issued; [ceil(n / 10)] batches run, three of them for [n = 23]. *)
Theorem batch_schedule (V : Type) (n : nat) (job : nat -> Promise V)
    (post : list V -> list V) (v : nat -> V) :
  (forall j, j < n -> job j = Resolved (v j)) ->
  (forall l, incl l (map v (seq 0 n)) -> post l = l) ->
  runBatches n job post = Some (Resolved (map v (seq 0 n)), logOf (batches n)) /\
  length (map v (seq 0 n)) = n /\
  length (batches n) = batchCount n /\
  (forall k, k < batchCount n ->
     nth k (batches n) [] = seq (batchSize * k) (length (nth k (batches n) [])) /\
     length (nth k (batches n) []) =
       if (S k <? batchCount n) || (n mod batchSize =? 0) then batchSize
       else n mod batchSize) /\
  inOrder 0 (logOf (batches n)) = true /\
  awaitedCount (logOf (batches n)) = batchCount n /\
  (n = 23 -> awaitedCount (logOf (batches n)) = 3).
Proof.
  intros Hjob Hpost.
  assert (HA : awaitedCount (logOf (batches n)) = batchCount n)
    by (now rewrite awaitedCount_logOf, length_batches).
  repeat split.
  - exact (@runBatches_resolves V n job post v Hjob Hpost).
  - now rewrite length_map, length_seq.
  - apply length_batches.
  - rewrite (@nth_batches n k H). unfold batch. now rewrite length_seq.
  - rewrite (@nth_batches n k H). now apply length_batch.
  - apply inOrder_batchesFrom with (d := batchCount n). lia.
  - exact HA.
  - intros ->. rewrite HA. reflexivity.
Qed.

Lemma batch_schedule_witness :
  let job := fun j : nat => Resolved (j * j) in
  runBatches 23 job (fun l => l) =
    Some (Resolved (map (fun j => j * j) (seq 0 23)), logOf (batches 23)) /\
  map (@length nat) (batches 23) = [10; 10; 3] /\
  awaitedCount (logOf (batches 23)) = 3.
Proof.
  intros job.
  assert (Hjob : forall j, j < 23 -> job j = Resolved (j * j)) by reflexivity.
  assert (Hpost : forall l : list nat,
             incl l (map (fun j => j * j) (seq 0 23)) -> (fun l => l) l = l)
    by reflexivity.
  pose proof (@batch_schedule nat 23 job (fun l => l) (fun j => j * j) Hjob Hpost)
    as (Hrun & _ & _ & _ & _ & _ & H23).
  split; [exact Hrun|].
  split; [reflexivity|].
  exact (H23 eq_refl).
Defined.

(** ** Runs in which a read fails *)

Section Failing.

Variable V : Type.
Variable n : nat.
Variable job : nat -> Promise V.
Variable post : list V -> list V.

(** The loop always comes to an end within the fuel it is given. *)
Lemma batchLoop_total (fuel k : nat) (all : list V) (log : list Event) :
  batchCount n - k < fuel ->
  exists r log', batchLoop n job post fuel (batchSize * k) all log = Some (r, log').
Proof.
  revert k all log. induction fuel as [|fuel IH]; intros k all log Hf; [lia|].
  cbn [batchLoop].
  destruct (Nat.ltb_spec (batchSize * k) n) as [Hlt | Hge]; [|eauto].
  destruct (promise_all _) as [batchResults | e]; [|eauto].
  replace (batchSize * k + batchSize) with (batchSize * S k) by lia.
  pose proof (@batchCount_le n k Hlt). apply IH. lia.
Qed.

Lemma runBatches_total : exists r log, runBatches n job post = Some (r, log).
Proof.
  unfold runBatches. change 0 with (batchSize * 0) at 1.
  apply batchLoop_total.
  unfold batchCount. pose proof (Nat.div_mod_eq (n + 9) 10).
  pose proof (Nat.mod_upper_bound (n + 9) 10). lia.
Qed.

(** A read that fails, in a batch not yet issued, makes the loop throw:
    the list built so far is dropped. *)
Lemma batchLoop_rejects (fuel k : nat) (all : list V) (log : list Event)
    (j : nat) (e : Error) :
  batchCount n - k < fuel ->
  batchSize * k <= j -> j < n -> job j = Rejected e ->
  exists e' log', batchLoop n job post fuel (batchSize * k) all log
                  = Some (Rejected e', log').
Proof.
  revert k all log. induction fuel as [|fuel IH]; intros k all log Hf Hk Hj He; [lia|].
  cbn [batchLoop].
  destruct (Nat.ltb_spec (batchSize * k) n) as [Hlt | Hge]; [|lia].
  rewrite map_add_seq. fold (batch n k).
  destruct (promise_all (map job (batch n k))) as [batchResults | e'] eqn:E; [|eauto].
  replace (batchSize * k + batchSize) with (batchSize * S k) by lia.
  pose proof (@batchCount_le n k Hlt).
  apply IH; try assumption; [lia|].
  destruct (le_lt_dec (batchSize * S k) j) as [Hnext | Hin]; [exact Hnext|].
  exfalso.
  apply promise_all_values in E.
  assert (Hb : In j (batch n k)).
  { unfold batch. apply in_seq. unfold batchSize in *. lia. }
  apply (in_map job) in Hb. rewrite E, He in Hb.
  apply in_map_iff in Hb. destruct Hb as (x & Hx & _). discriminate.
Qed.

(** Whatever the reads do, the requests of batch [k] are issued after
    exactly [k] batches have been awaited. *)
Lemma batchLoop_inOrder (fuel k : nat) (all : list V) (log : list Event)
    (r : Promise (list V)) (log' : list Event) :
  inOrder 0 log = true -> awaitedCount log = k ->
  batchLoop n job post fuel (batchSize * k) all log = Some (r, log') ->
  inOrder 0 log' = true.
Proof.
  revert k all log. induction fuel as [|fuel IH]; intros k all log Hlog Hk; [discriminate|].
  cbn [batchLoop].
  destruct (Nat.ltb_spec (batchSize * k) n) as [Hlt | Hge];
    [|intros [= _ <-]; exact Hlog].
  rewrite map_add_seq. fold (batch n k).
  assert (Hissued : inOrder 0 (log ++ map Issued (batch n k)) = true).
  { rewrite inOrder_app, Hlog, Hk. cbn [andb Nat.add].
    apply inOrder_issued. intros j Hj. now apply batch_positions in Hj. }
  destruct (promise_all (map job (batch n k))) as [batchResults | e].
  - replace (batchSize * k + batchSize) with (batchSize * S k) by lia.
    apply IH.
    + rewrite inOrder_app, Hissued. reflexivity.
    + rewrite !awaitedCount_app, awaitedCount_issued, Hk. cbn. lia.
  - intros [= _ <-]. exact Hissued.
Qed.

Lemma runBatches_inOrder (r : Promise (list V)) (log : list Event) :
  runBatches n job post = Some (r, log) -> inOrder 0 log = true.
Proof.
  unfold runBatches. change 0 with (batchSize * 0) at 1.
  now apply batchLoop_inOrder.
Qed.

Lemma runBatches_rejects (j : nat) (e : Error) :
  j < n -> job j = Rejected e ->
  exists e' log, runBatches n job post = Some (Rejected e', log).
Proof.
  intros Hj He. unfold runBatches. change 0 with (batchSize * 0) at 1.
  apply batchLoop_rejects with (j := j) (e := e); try assumption; [|lia].
  unfold batchCount. pose proof (Nat.div_mod_eq (n + 9) 10).
  pose proof (Nat.mod_upper_bound (n + 9) 10). lia.
Qed.

End Failing.

(** ** Where a failing run stops *)

Section Stopping.

Variable V : Type.
Variable n : nat.
Variable job : nat -> Promise V.
Variable post : list V -> list V.
Variable v : nat -> V.

(** Batch [k] is the first one with a failing read, at position [j]. *)
Variable k j : nat.
Variable e : Error.
Hypothesis earlier_resolve : forall i, i < batchSize * k -> job i = Resolved (v i).
Hypothesis j_in_batch : In j (batch n k).
Hypothesis j_rejects : job j = Rejected e.

Lemma batchLoop_stops (fuel k0 : nat) (all : list V) (log : list Event) :
  k0 <= k -> k - k0 < fuel ->
  exists e',
    batchLoop n job post fuel (batchSize * k0) all log
    = Some (Rejected e',
            log ++ logOf (map (batch n) (seq k0 (k - k0)))
                ++ map Issued (batch n k)).
Proof.
  pose proof (batch_positions _ _ _ j_in_batch) as [Hjn Hjk].
  assert (Hkj : batchSize * k <= j).
  { unfold batch in j_in_batch. apply in_seq in j_in_batch. lia. }
  revert k0 all log. induction fuel as [|fuel IH]; intros k0 all log Hk0 Hf; [lia|].
  cbn [batchLoop].
  destruct (Nat.ltb_spec (batchSize * k0) n) as [Hlt | Hge];
    [|unfold batchSize in *; lia].
  rewrite map_add_seq. fold (batch n k0).
  destruct (Nat.eq_dec k0 k) as [-> | Hne].
  - destruct (promise_all_rejects (map job (batch n k))) as [e' He'].
    { exists e. rewrite <- j_rejects. now apply in_map. }
    rewrite He'. exists e'. rewrite Nat.sub_diag. cbn [seq map logOf flat_map app].
    reflexivity.
  - assert (Hres : promise_all (map job (batch n k0)) = Resolved (map v (batch n k0))).
    { rewrite <- promise_all_resolved. f_equal.
      apply map_ext_in. intros i Hi. apply earlier_resolve.
      unfold batch in Hi. apply in_seq in Hi. unfold batchSize in *. lia. }
    rewrite Hres.
    replace (batchSize * k0 + batchSize) with (batchSize * S k0) by lia.
    destruct (IH (S k0) (all ++ post (map v (batch n k0)))
                ((log ++ map Issued (batch n k0)) ++ [Awaited])
                ltac:(lia) ltac:(lia)) as [e' He'].
    exists e'. rewrite He'. do 2 f_equal.
    replace (k - k0) with (S (k - S k0)) by lia.
    cbn [seq map logOf flat_map]. now rewrite <- !app_assoc.
Qed.

End Stopping.

(** When the first failing read is in batch [k], the loop throws after
    having issued the requests of batches 0 to [k] and no other: all of
    batch [k], also those behind the failing position, and none of a
    later batch. *)
Lemma runBatches_stops (V : Type) (n : nat) (job : nat -> Promise V)
    (post : list V -> list V) (v : nat -> V) (k j : nat) (e : Error) :
  (forall i, i < batchSize * k -> job i = Resolved (v i)) ->
  In j (batch n k) ->
  job j = Rejected e ->
  exists e',
    runBatches n job post
    = Some (Rejected e',
            logOf (map (batch n) (seq 0 k)) ++ map Issued (batch n k)).
Proof.
  intros Hearlier Hj He.
  pose proof (batch_positions _ _ _ Hj) as [Hjn Hjk].
  assert (Hk : k < batchCount n).
  { apply batchCount_le. unfold batch in Hj. apply in_seq in Hj. lia. }
  unfold runBatches. change 0 with (batchSize * 0) at 1.
  destruct (@batchLoop_stops V n job post v k j e Hearlier Hj He (S n) 0 [] [])
    as [e' He']; [lia | | ].
  - unfold batchCount in Hk. pose proof (Nat.div_mod_eq (n + 9) 10).
    pose proof (Nat.mod_upper_bound (n + 9) 10). lia.
  - exists e'. rewrite He'. cbn [app]. now rewrite Nat.sub_0_r.
Qed.

Lemma runBatches_stops_witness :
  let job := fun i : nat => if i =? 13 then Rejected (GatewayError 500)
                            else Resolved (i * i) in
  exists e',
    runBatches 35 job (fun l => l)
    = Some (Rejected e',
            logOf (map (batch 35) (seq 0 1)) ++ map Issued (batch 35 1)).
Proof.
  intros job.
  apply (@runBatches_stops nat 35 job (fun l => l) (fun i => i * i) 1 13
           (GatewayError 500)).
  - intros i Hi. unfold job.
    destruct (Nat.eqb_spec i 13) as [-> | _]; [|reflexivity].
    unfold batchSize in Hi. lia.
  - unfold batch, batchSize. apply in_seq. cbn. lia.
  - reflexivity.
Defined.

Lemma runBatches_inOrder_witness :
  let job := fun i : nat => if i =? 13 then Rejected (GatewayError 500)
                            else Resolved (i * i) in
  inOrder 0 (map Issued (seq 0 10) ++ Awaited :: map Issued (seq 10 10)) = true.
Proof.
  intros job.
  apply (@runBatches_inOrder nat 35 job (fun l => l) (Rejected (GatewayError 500))).
  reflexivity.
Defined.

End Batch.

(* ================================================================== *)
(** * The validator query: [fetchValidator] *)
(* ================================================================== *)

Module Query.

Import Async.
Open Scope Z_scope.

Section FetchValidator.

(** The raw ABI tuples and the transformed [Validator] come from the
    generated clients and from [utils/contracts]; the join does not look
    inside them. *)
Variables RawValidatorConfig RawValidatorState RawPoolInfo : Type.
Variables RawPoolTokenPayoutRatios RawNodePoolAssignmentConfig : Type.
Variable Validator : Type.

(** [RawPoolsInfo] is an array of pool tuples. *)
Definition RawPoolsInfo : Type := list RawPoolInfo.

Variable transformValidatorData :
  RawValidatorConfig -> RawValidatorState -> RawPoolsInfo ->
  RawPoolTokenPayoutRatios -> RawNodePoolAssignmentConfig -> Validator.

(** The simulate-only reads of a [ValidatorRegistryClient] that the
    query layer uses: what [client.compose().getX(...).simulate(...)]
    resolves to. *)
Record ValidatorRegistryClient : Type := mkValidatorRegistryClient {
  getValidatorConfig : Z -> Promise (SimulateResult RawValidatorConfig);
  getValidatorState : Z -> Promise (SimulateResult RawValidatorState);
  getPools : Z -> Promise (SimulateResult RawPoolsInfo);
  getTokenPayoutRatio : Z -> Promise (SimulateResult RawPoolTokenPayoutRatios);
  getNodePoolAssignments :
    Z -> Promise (SimulateResult RawNodePoolAssignmentConfig);
  getNumValidators : Promise (SimulateResult Z)
}.

Variable validatorClient : ValidatorRegistryClient.

Definition callGetValidatorConfig (validatorId : Z) :=
  getValidatorConfig validatorClient validatorId.
Definition callGetValidatorState (validatorId : Z) :=
  getValidatorState validatorClient validatorId.
Definition callGetPools (validatorId : Z) :=
  getPools validatorClient validatorId.
Definition callGetTokenPayoutRatio (validatorId : Z) :=
  getTokenPayoutRatio validatorClient validatorId.
Definition callGetNodePoolAssignments (validatorId : Z) :=
  getNodePoolAssignments validatorClient validatorId.
Definition callGetNumValidators := getNumValidators validatorClient.

(** [!raw] on a value that is either [undefined] or an array (every raw
    ABI tuple is one, the pool list too): only [undefined] is falsy, an
    empty array is not. *)
Definition not_ {T : Type} (raw : option T) : bool :=
  match raw with
  | None => true
  | Some _ => false
  end.

(** The body of [fetchValidator] after the [await Promise.all]. *)
Definition assemble (validatorId : Z)
    (config : SimulateResult RawValidatorConfig)
    (state : SimulateResult RawValidatorState)
    (validatorPoolData : SimulateResult RawPoolsInfo)
    (poolTokenPayoutRatios : SimulateResult RawPoolTokenPayoutRatios)
    (nodePoolAssignments : SimulateResult RawNodePoolAssignmentConfig)
  : Promise Validator :=
  let rawConfig := returns_opt0 config in
  let rawState := returns_opt0 state in
  let rawPoolsInfo := returns_opt0 validatorPoolData in
  let rawPoolTokenPayoutRatios := returns_opt0 poolTokenPayoutRatios in
  let rawNodePoolAssignment := returns_opt0 nodePoolAssignments in
  if not_ rawConfig || not_ rawState || not_ rawPoolsInfo
     || not_ rawPoolTokenPayoutRatios || not_ rawNodePoolAssignment
  then Rejected (ValidatorNotFoundError validatorId)
  else
    match rawConfig, rawState, rawPoolsInfo,
          rawPoolTokenPayoutRatios, rawNodePoolAssignment with
    | Some c, Some s, Some p, Some r, Some n =>
        Resolved (transformValidatorData c s p r n)
    | _, _, _, _, _ => Rejected TypeError
    end.

(** [fetchValidator]: the five reads are started together and joined;
    the [catch] logs the error and throws it again. *)
Definition fetchValidator (validatorId : Z) : Promise Validator :=
  then_
    (both (callGetValidatorConfig validatorId)
       (both (callGetValidatorState validatorId)
          (both (callGetPools validatorId)
             (both (callGetTokenPayoutRatio validatorId)
                (callGetNodePoolAssignments validatorId)))))
    (fun '(config, (state, (validatorPoolData,
            (poolTokenPayoutRatios, nodePoolAssignments)))) =>
       assemble validatorId config state validatorPoolData
                poolTokenPayoutRatios nodePoolAssignments).

(** The five reads all resolved, with these results. *)
Definition reads_resolved (validatorId : Z)
    (config : SimulateResult RawValidatorConfig)
    (state : SimulateResult RawValidatorState)
    (validatorPoolData : SimulateResult RawPoolsInfo)
    (poolTokenPayoutRatios : SimulateResult RawPoolTokenPayoutRatios)
    (nodePoolAssignments : SimulateResult RawNodePoolAssignmentConfig) : Prop :=
  callGetValidatorConfig validatorId = Resolved config /\
  callGetValidatorState validatorId = Resolved state /\
  callGetPools validatorId = Resolved validatorPoolData /\
  callGetTokenPayoutRatio validatorId = Resolved poolTokenPayoutRatios /\
  callGetNodePoolAssignments validatorId = Resolved nodePoolAssignments.

Lemma fetchValidator_resolved (validatorId : Z) config state pools ratios nodes :
  reads_resolved validatorId config state pools ratios nodes ->
  fetchValidator validatorId = assemble validatorId config state pools ratios nodes.
Proof.
  intros (Hc & Hs & Hp & Hr & Hn).
  unfold fetchValidator. rewrite Hc, Hs, Hp, Hr, Hn. reflexivity.
Qed.

Lemma fetchValidator_inv (validatorId : Z) (v : Validator) :
  fetchValidator validatorId = Resolved v ->
  exists config state pools ratios nodes,
    reads_resolved validatorId config state pools ratios nodes /\
    assemble validatorId config state pools ratios nodes = Resolved v.
Proof.
  unfold fetchValidator, reads_resolved.
  destruct (callGetValidatorConfig validatorId) as [c|]; [|discriminate].
  destruct (callGetValidatorState validatorId) as [s|]; [|discriminate].
  destruct (callGetPools validatorId) as [p|]; [|discriminate].
  destruct (callGetTokenPayoutRatio validatorId) as [r|]; [|discriminate].
  destruct (callGetNodePoolAssignments validatorId) as [n|]; [|discriminate].
  cbn. intros H. exists c, s, p, r, n. repeat split; assumption.
Qed.

(** C3, amended.  When the five reads resolve and one of them carries
    no return value, [fetchValidator] throws [ValidatorNotFoundError].
    Whenever it returns a validator, all five reads resolved with a
    return value and the validator is the transform of these five
    values; and it does return that validator whenever the five values
    are there, a pool directory that is the empty array included.  When
    one of the reads fails, [fetchValidator] throws the failure of a
    read, not the not-found error. *)
Theorem fetchValidator_not_found (validatorId : Z) :
  (forall config state pools ratios nodes,
     reads_resolved validatorId config state pools ratios nodes ->
     returns_opt0 config = None \/ returns_opt0 state = None \/
     returns_opt0 pools = None \/ returns_opt0 ratios = None \/
     returns_opt0 nodes = None ->
     fetchValidator validatorId = Rejected (ValidatorNotFoundError validatorId)) /\
  (forall v, fetchValidator validatorId = Resolved v ->
     exists config state pools ratios nodes rc rs rp rr rn,
       reads_resolved validatorId config state pools ratios nodes /\
       returns_opt0 config = Some rc /\ returns_opt0 state = Some rs /\
       returns_opt0 pools = Some rp /\ returns_opt0 ratios = Some rr /\
       returns_opt0 nodes = Some rn /\
       v = transformValidatorData rc rs rp rr rn) /\
  (forall config state pools ratios nodes rc rs rp rr rn,
     reads_resolved validatorId config state pools ratios nodes ->
     returns_opt0 config = Some rc -> returns_opt0 state = Some rs ->
     returns_opt0 pools = Some rp -> returns_opt0 ratios = Some rr ->
     returns_opt0 nodes = Some rn ->
     fetchValidator validatorId = Resolved (transformValidatorData rc rs rp rr rn)) /\
  (forall e,
     callGetValidatorConfig validatorId = Rejected e \/
     callGetValidatorState validatorId = Rejected e \/
     callGetPools validatorId = Rejected e \/
     callGetTokenPayoutRatio validatorId = Rejected e \/
     callGetNodePoolAssignments validatorId = Rejected e ->
     exists e',
       fetchValidator validatorId = Rejected e' /\
       (callGetValidatorConfig validatorId = Rejected e' \/
        callGetValidatorState validatorId = Rejected e' \/
        callGetPools validatorId = Rejected e' \/
        callGetTokenPayoutRatio validatorId = Rejected e' \/
        callGetNodePoolAssignments validatorId = Rejected e')).
Proof.
  split; [|split; [|split]].
  - intros config state pools ratios nodes HR HE.
    rewrite (fetchValidator_resolved HR). unfold assemble.
    destruct HE as [E | [E | [E | [E | E]]]]; rewrite E; cbn;
      rewrite ?orb_true_r; reflexivity.
  - intros v Hv.
    destruct (fetchValidator_inv _ Hv) as (c & s & p & r & n & HR & HA).
    exists c, s, p, r, n.
    unfold assemble in HA.
    destruct (returns_opt0 c) as [rc|]; [|discriminate].
    destruct (returns_opt0 s) as [rs|]; [|discriminate].
    destruct (returns_opt0 p) as [rp|]; [|discriminate].
    destruct (returns_opt0 r) as [rr|]; [|discriminate].
    destruct (returns_opt0 n) as [rn|]; [|discriminate].
    cbn in HA. injection HA as <-.
    exists rc, rs, rp, rr, rn. repeat split; try reflexivity; apply HR.
  - intros config state pools ratios nodes rc rs rp rr rn HR Hc Hs Hp Hr Hn.
    rewrite (fetchValidator_resolved HR). unfold assemble.
    rewrite Hc, Hs, Hp, Hr, Hn. reflexivity.
  - intros e HE. unfold fetchValidator.
    destruct (callGetValidatorConfig validatorId) as [c | e1];
      [| exists e1; split; [reflexivity | now left]].
    destruct (callGetValidatorState validatorId) as [s | e2];
      [| exists e2; split; [reflexivity | right; now left]].
    destruct (callGetPools validatorId) as [p | e3];
      [| exists e3; split; [reflexivity | right; right; now left]].
    destruct (callGetTokenPayoutRatio validatorId) as [q | e4];
      [| exists e4; split; [reflexivity | right; right; right; now left]].
    destruct (callGetNodePoolAssignments validatorId) as [n | e5];
      [| exists e5; split; [reflexivity | right; right; right; now right]].
    destruct HE as [E | [E | [E | [E | E]]]]; discriminate E.
Qed.

(** A pool directory that resolves to an empty array is a present value:
    the validator is assembled, with no pools. *)
Lemma fetchValidator_no_pools (validatorId : Z) config state ratios nodes rc rs rr rn :
  reads_resolved validatorId config state
    (mkSimulateResult (Some [Some []])) ratios nodes ->
  returns_opt0 config = Some rc -> returns_opt0 state = Some rs ->
  returns_opt0 ratios = Some rr -> returns_opt0 nodes = Some rn ->
  fetchValidator validatorId = Resolved (transformValidatorData rc rs [] rr rn).
Proof.
  intros HR Hc Hs Hr Hn.
  rewrite (fetchValidator_resolved HR). unfold assemble.
  rewrite Hc, Hs, Hr, Hn. reflexivity.
Qed.

(** ** [fetchValidators] *)

(** [!numValidators] on a count that is [undefined] or a [bigint]. *)
Definition noValidators (numValidators : option Z) : bool :=
  match numValidators with
  | None => true
  | Some c => c =? 0
  end.

(** [validator !== undefined] *)
Definition defined (validator : option Validator) : bool :=
  match validator with
  | Some _ => true
  | None => false
  end.

(** The promise created at position [i + index] of the loop: the fetch
    of validator [i + index + 1].  An element of [batchResults] is a
    validator or, as far as the [filter] is concerned, [undefined]. *)
Definition validatorJob (position : nat) : Promise (option Validator) :=
  then_ (fetchValidator (Z.of_nat position + 1)) (fun v => Resolved (Some v)).

(** [fetchValidators], with the log of its batch loop. *)
Definition fetchValidators
  : option (Promise (list (option Validator)) * list Batch.Event) :=
  match then_ callGetNumValidators returns_bang0 with
  | Rejected e => Some (Rejected e, [])
  | Resolved numValidators =>
      if noValidators numValidators then Some (Resolved [], [])
      else
        match numValidators with
        | Some c =>
            Batch.runBatches (Z.to_nat c) validatorJob (filter defined)
        | None => Some (Resolved [], [])
        end
  end.

Lemma fetchValidators_fails_fast (c : Z) (validatorId : Z) (e : Error) :
  then_ callGetNumValidators returns_bang0 = Resolved (Some c) ->
  1 <= validatorId <= c ->
  fetchValidator validatorId = Rejected e ->
  exists e' log, fetchValidators = Some (Rejected e', log).
Proof.
  intros Hc Hid He. unfold fetchValidators. rewrite Hc. cbn [noValidators].
  destruct (Z.eqb_spec c 0) as [-> | _]; [lia|].
  apply Batch.runBatches_rejects with (j := Z.to_nat (validatorId - 1)) (e := e).
  - lia.
  - unfold validatorJob.
    replace (Z.of_nat (Z.to_nat (validatorId - 1)) + 1) with validatorId by lia.
    now rewrite He.
Qed.

Lemma fetchValidators_total : exists r log, fetchValidators = Some (r, log).
Proof.
  unfold fetchValidators.
  destruct (then_ callGetNumValidators returns_bang0) as [[c|] | e]; cbn; eauto.
  destruct (c =? 0); eauto. apply Batch.runBatches_total.
Qed.

(** ** What [fetchValidator] and [fetchValidators] do besides *)

(** [fetchValidator] throws nothing of its own but the not-found error:
    it rejects exactly when a read rejects, then with the reason of a
    rejected read, or when all five reads resolved and one of them
    carries no value, then with [ValidatorNotFoundError]. *)
Lemma fetchValidator_rejection (validatorId : Z) (e : Error) :
  fetchValidator validatorId = Rejected e ->
  (callGetValidatorConfig validatorId = Rejected e \/
   callGetValidatorState validatorId = Rejected e \/
   callGetPools validatorId = Rejected e \/
   callGetTokenPayoutRatio validatorId = Rejected e \/
   callGetNodePoolAssignments validatorId = Rejected e) \/
  (e = ValidatorNotFoundError validatorId /\
   exists config state pools ratios nodes,
     reads_resolved validatorId config state pools ratios nodes /\
     (returns_opt0 config = None \/ returns_opt0 state = None \/
      returns_opt0 pools = None \/ returns_opt0 ratios = None \/
      returns_opt0 nodes = None)).
Proof.
  unfold fetchValidator, reads_resolved.
  destruct (callGetValidatorConfig validatorId) as [c|e1];
    [|cbn; intros [= ->]; auto].
  destruct (callGetValidatorState validatorId) as [s|e2];
    [|cbn; intros [= ->]; auto].
  destruct (callGetPools validatorId) as [p|e3];
    [|cbn; intros [= ->]; auto].
  destruct (callGetTokenPayoutRatio validatorId) as [r|e4];
    [|cbn; intros [= ->]; auto 6].
  destruct (callGetNodePoolAssignments validatorId) as [n|e5];
    [|cbn; intros [= ->]; auto 6].
  cbn [both then_]. unfold assemble. intros H. right.
  destruct (returns_opt0 c) eqn:Ec, (returns_opt0 s) eqn:Es,
           (returns_opt0 p) eqn:Ep, (returns_opt0 r) eqn:Er,
           (returns_opt0 n) eqn:En; cbn in H; try discriminate;
    injection H as <-; (split; [reflexivity|]);
    exists c, s, p, r, n; (split; [repeat split|]);
    rewrite ?Ec, ?Es, ?Ep, ?Er, ?En; auto 6.
Qed.

Lemma filter_defined_Some (l : list (option Validator)) :
  (forall x, In x l -> exists a, x = Some a) -> filter defined l = l.
Proof.
  induction l as [|x l IH]; intros H; [reflexivity|].
  cbn [filter]. destruct (H x (or_introl eq_refl)) as [a ->]. cbn [defined].
  f_equal. apply IH. intros y Hy. apply H. now right.
Qed.

(** With no validator registered (a count of zero, or no count at all)
    [fetchValidators] returns the empty list without fetching anything. *)
Lemma fetchValidators_none :
  then_ callGetNumValidators returns_bang0 = Resolved None \/
  then_ callGetNumValidators returns_bang0 = Resolved (Some 0) ->
  fetchValidators = Some (Resolved [], []).
Proof. unfold fetchValidators. intros [-> | ->]; reflexivity. Qed.

(** When all of the validators 1 to [numValidators] can be fetched,
    [fetchValidators] returns them in the order of their ids, none
    dropped by the filter, fetched in batches of ten. *)
Lemma fetchValidators_resolves (numValidators : Z) (v : Z -> Validator) :
  then_ callGetNumValidators returns_bang0 = Resolved (Some numValidators) ->
  (forall validatorId, 1 <= validatorId <= numValidators ->
     fetchValidator validatorId = Resolved (v validatorId)) ->
  fetchValidators
  = Some (Resolved (map (fun position => Some (v (Z.of_nat position + 1)))
                        (seq 0 (Z.to_nat numValidators))),
          Batch.logOf (Batch.batches (Z.to_nat numValidators))).
Proof.
  intros Hc Hv. unfold fetchValidators. rewrite Hc. cbn [noValidators].
  destruct (Z.eqb_spec numValidators 0) as [-> | Hne]; [reflexivity|].
  apply Batch.runBatches_resolves.
  - intros j Hj. unfold validatorJob. rewrite Hv by lia. reflexivity.
  - intros l Hl. apply filter_defined_Some. intros x Hx.
    apply Hl, in_map_iff in Hx. destruct Hx as (j & <- & _). eauto.
Qed.

End FetchValidator.

End Query.

(* ================================================================== *)
(** * The staker query: [fetchStakerValidatorData] *)
(* ================================================================== *)

Module Staker.

Import Async.
Import Aggregator.
Open Scope Z_scope.

Section FetchStakerValidatorData.

(** The two simulate-only reads: the registry's list of the pools a
    staker is in, and a pool's record of a staker (by pool app id). *)
Variable callGetStakedPoolsForAccount :
  string -> Promise (SimulateResult (list (Z * Z * Z))).
Variable callGetStakerInfo :
  Z -> string -> Promise (SimulateResult (string * Z * Z * Z * Z)).

Definition fetchStakedPoolsForAccount (staker : string)
  : Promise (list ValidatorPoolKey) :=
  then_ (callGetStakedPoolsForAccount staker) (fun result =>
  then_ (returns_bang0 result) (fun stakedPools =>
    match stakedPools with
    | Some l =>
        Resolved (map (fun '(validatorId, poolId, poolAppId) =>
                         mkPoolKey (JsNumber.Number validatorId)
                                   (JsNumber.Number poolId)
                                   (JsNumber.Number poolAppId)) l)
    | None => Rejected TypeError
    end)).

Definition fetchStakerPoolData (poolKey : ValidatorPoolKey) (staker : string)
  : Promise StakerPoolData :=
  then_ (callGetStakerInfo (poolAppId poolKey) staker) (fun result =>
  then_ (returns_bang0 result) (fun info =>
    match info with
    | Some (account, balance, totalRewarded, rewardTokenBalance, entryTime) =>
        Resolved (mkPool account (JsNumber.Number balance)
                         (JsNumber.Number totalRewarded)
                         (JsNumber.Number rewardTokenBalance)
                         (JsNumber.Number entryTime) poolKey)
    | None => Rejected TypeError
    end)).

(** The promise created at position [i + index]: [poolKeys[i + index]]
    is [undefined] past the end, and reading its [poolAppId] throws. *)
Definition poolJob (poolKeys : list ValidatorPoolKey) (staker : string)
    (position : nat) : Promise StakerPoolData :=
  match nth_error poolKeys position with
  | Some poolKey => fetchStakerPoolData poolKey staker
  | None => Rejected TypeError
  end.

(** [fetchStakerValidatorData], with the log of its batch loop. *)
Definition fetchStakerValidatorData (staker : string)
  : option (Promise (list StakerValidatorData) * list Batch.Event) :=
  match fetchStakedPoolsForAccount staker with
  | Rejected e => Some (Rejected e, [])
  | Resolved poolKeys =>
      match Batch.runBatches (length poolKeys) (poolJob poolKeys staker)
                             (fun batchResults => batchResults) with
      | Some (Resolved allPools, log) => Some (Resolved (aggregate allPools), log)
      | Some (Rejected e, log) => Some (Rejected e, log)
      | None => None
      end
  end.

Lemma fetchStakerValidatorData_total (staker : string) :
  exists r log, fetchStakerValidatorData staker = Some (r, log).
Proof.
  unfold fetchStakerValidatorData.
  destruct (fetchStakedPoolsForAccount staker) as [poolKeys | e]; [|eauto].
  destruct (Batch.runBatches_total (length poolKeys) (poolJob poolKeys staker)
              (fun batchResults => batchResults)) as ([allPools | e] & log & ->);
    eauto.
Qed.

Lemma map_nth_error_seq {A B : Type} (f : A -> B) (d : B) (l : list A) :
  map (fun j => match nth_error l j with Some a => f a | None => d end)
      (seq 0 (length l)) = map f l.
Proof.
  induction l as [|a l IH]; [reflexivity|].
  cbn [length seq map nth_error]. f_equal.
  rewrite <- seq_shift, map_map. exact IH.
Qed.

(** When every pool of the staker can be read, the result is the
    aggregate of the pool records in the order of the staker's pool
    list, fetched batch by batch. *)
Lemma fetchStakerValidatorData_resolves (staker : string)
    (poolKeys : list ValidatorPoolKey) (info : ValidatorPoolKey -> StakerPoolData) :
  fetchStakedPoolsForAccount staker = Resolved poolKeys ->
  (forall k, In k poolKeys -> fetchStakerPoolData k staker = Resolved (info k)) ->
  fetchStakerValidatorData staker
  = Some (Resolved (aggregate (map info poolKeys)),
          Batch.logOf (Batch.batches (length poolKeys))).
Proof.
  intros Hkeys Hinfo. unfold fetchStakerValidatorData. rewrite Hkeys.
  set (v := fun j => match nth_error poolKeys j with
                     | Some k => info k
                     | None => info (mkPoolKey 0 0 0)
                     end).
  rewrite (@Batch.runBatches_resolves _ (length poolKeys)
             (poolJob poolKeys staker) (fun batchResults => batchResults) v).
  - unfold v. now rewrite map_nth_error_seq.
  - intros j Hj. unfold poolJob, v.
    destruct (nth_error poolKeys j) as [k|] eqn:E.
    + apply Hinfo. now apply nth_error_In with (n := j).
    + apply nth_error_None in E. lia.
  - reflexivity.
Qed.

Lemma fetchStakerValidatorData_fails_fast (staker : string)
    (poolKeys : list ValidatorPoolKey) (poolKey : ValidatorPoolKey) (e : Error) :
  fetchStakedPoolsForAccount staker = Resolved poolKeys ->
  In poolKey poolKeys ->
  fetchStakerPoolData poolKey staker = Rejected e ->
  exists e' log, fetchStakerValidatorData staker = Some (Rejected e', log).
Proof.
  intros Hkeys Hin He. unfold fetchStakerValidatorData. rewrite Hkeys.
  destruct (In_nth_error _ _ Hin) as [j Hj].
  assert (Hlt : (j < length poolKeys)%nat)
    by (apply nth_error_Some; rewrite Hj; discriminate).
  destruct (@Batch.runBatches_rejects _ (length poolKeys) (poolJob poolKeys staker)
              (fun batchResults => batchResults) j e Hlt) as (e' & log & ->).
  - unfold poolJob. now rewrite Hj.
  - eauto.
Qed.

End FetchStakerValidatorData.

End Staker.

(* ================================================================== *)
(** * Failing reads: the batch loops and the validator join *)
(* ================================================================== *)

Module FailFast.

Import Async.
Open Scope Z_scope.

(** A registry of three validators whose every read carries a value,
    except that the state read of validator 2 fails, and a staker in two
    pools of validator 7, the second of which cannot be read. *)
Definition present : Promise (SimulateResult unit) :=
  Resolved (mkSimulateResult (Some [Some tt])).

Definition registry3 : Query.ValidatorRegistryClient unit unit unit unit unit :=
  Query.mkValidatorRegistryClient
    (fun _ => present)
    (fun validatorId => if validatorId =? 2 then Rejected (GatewayError 503) else present)
    (fun _ => Resolved (mkSimulateResult (Some [Some []])))
    (fun _ => present)
    (fun _ => present)
    (Resolved (mkSimulateResult (Some [Some 3]))).

Definition stakedPools2 (staker : string)
  : Promise (SimulateResult (list (Z * Z * Z))) :=
  Resolved (mkSimulateResult (Some [Some [(7, 1, 501); (7, 2, 502)]])).

Definition stakerInfo2 (poolAppId : Z) (staker : string)
  : Promise (SimulateResult (string * Z * Z * Z * Z)) :=
  if poolAppId =? 502 then Rejected (GatewayError 500)
  else Resolved (mkSimulateResult (Some [Some (staker, 100, 0, 0, 1000)])).

(** C6.  In [fetchStakerValidatorData] and in [fetchValidators], one
    fetch of the batch loop that fails makes the whole operation throw:
    the outcome is a rejection, never a list. *)
Theorem batch_fetch_fails_fast :
  (forall callGetStakedPoolsForAccount callGetStakerInfo
          (staker : string) poolKeys poolKey (e : Error),
     Staker.fetchStakedPoolsForAccount callGetStakedPoolsForAccount staker
       = Resolved poolKeys ->
     In poolKey poolKeys ->
     Staker.fetchStakerPoolData callGetStakerInfo poolKey staker = Rejected e ->
     exists e' log,
       Staker.fetchStakerValidatorData callGetStakedPoolsForAccount
         callGetStakerInfo staker = Some (Rejected e', log)) /\
  (forall (RawValidatorConfig RawValidatorState RawPoolInfo : Type)
          (RawPoolTokenPayoutRatios RawNodePoolAssignmentConfig Validator : Type)
          (transformValidatorData :
             RawValidatorConfig -> RawValidatorState -> list RawPoolInfo ->
             RawPoolTokenPayoutRatios -> RawNodePoolAssignmentConfig -> Validator)
          (validatorClient :
             Query.ValidatorRegistryClient RawValidatorConfig RawValidatorState
               RawPoolInfo RawPoolTokenPayoutRatios RawNodePoolAssignmentConfig)
          (numValidators validatorId : Z) (e : Error),
     then_ (Query.callGetNumValidators validatorClient) returns_bang0
       = Resolved (Some numValidators) ->
     1 <= validatorId <= numValidators ->
     Query.fetchValidator transformValidatorData validatorClient validatorId
       = Rejected e ->
     exists e' log,
       Query.fetchValidators transformValidatorData validatorClient
         = Some (Rejected e', log)).
Proof.
  split.
  - intros cgs cgi staker poolKeys poolKey e Hkeys Hin He.
    now apply Staker.fetchStakerValidatorData_fails_fast
      with (poolKeys := poolKeys) (poolKey := poolKey) (e := e).
  - intros RC RS RP RR RN Vd tr client c validatorId e Hc Hid He.
    now apply Query.fetchValidators_fails_fast
      with (c := c) (validatorId := validatorId) (e := e).
Qed.

Lemma batch_fetch_fails_fast_witness :
  (exists e' log,
     Staker.fetchStakerValidatorData stakedPools2 stakerInfo2 "S"
       = Some (Rejected e', log)) /\
  (exists e' log,
     Query.fetchValidators (fun _ _ _ _ _ => tt) registry3 = Some (Rejected e', log)).
Proof.
  destruct batch_fetch_fails_fast as [HS HV].
  split.
  - apply (HS stakedPools2 stakerInfo2 "S"%string
              [Aggregator.mkPoolKey 7 1 501; Aggregator.mkPoolKey 7 2 502]
              (Aggregator.mkPoolKey 7 2 502) (GatewayError 500)).
    + reflexivity.
    + right; left; reflexivity.
    + reflexivity.
  - apply (HV unit unit unit unit unit unit (fun _ _ _ _ _ => tt) registry3
              3 2 (GatewayError 503)).
    + reflexivity.
    + lia.
    + reflexivity.
Defined.

(** What the two runs are: the second pool's rejection, and the rejection
    of validator 2, each after the requests of the first batch. *)
Example fetchStakerValidatorData_run :
  Staker.fetchStakerValidatorData stakedPools2 stakerInfo2 "S"
  = Some (Rejected (GatewayError 500), [Batch.Issued 0; Batch.Issued 1]).
Proof. reflexivity. Qed.

Example fetchValidators_run :
  Query.fetchValidators (fun _ _ _ _ _ => tt) registry3
  = Some (Rejected (GatewayError 503),
          [Batch.Issued 0; Batch.Issued 1; Batch.Issued 2]).
Proof. reflexivity. Qed.

(** The not-found outcome of [fetchValidator], on a registry whose
    config read of validator 5 carries no value. *)
Definition registryMissing5 : Query.ValidatorRegistryClient unit unit unit unit unit :=
  Query.mkValidatorRegistryClient
    (fun validatorId =>
       if validatorId =? 5 then Resolved (mkSimulateResult (Some [None]))
       else present)
    (fun _ => present)
    (fun _ => Resolved (mkSimulateResult (Some [Some []])))
    (fun _ => present)
    (fun _ => present)
    (Resolved (mkSimulateResult (Some [Some 9]))).

Lemma fetchValidator_not_found_witness :
  Query.fetchValidator (fun _ _ _ _ _ => tt) registryMissing5 5
    = Rejected (ValidatorNotFoundError 5) /\
  Query.fetchValidator (fun _ _ _ _ _ => tt) registryMissing5 4 = Resolved tt.
Proof.
  split; [|reflexivity].
  destruct (Query.fetchValidator_not_found (fun _ _ _ _ _ => tt) registryMissing5 5)
    as [H _].
  apply (H (mkSimulateResult (Some [None]))
           (mkSimulateResult (Some [Some tt]))
           (mkSimulateResult (Some [Some []]))
           (mkSimulateResult (Some [Some tt]))
           (mkSimulateResult (Some [Some tt]))).
  - repeat split.
  - left; reflexivity.
Defined.

(** A registry whose validators have no pools yet, and on which the
    config read of validator 5 carries no value while its state read
    fails. *)
Definition registryNoPools : Query.ValidatorRegistryClient unit unit Z unit unit :=
  Query.mkValidatorRegistryClient
    (fun validatorId =>
       if validatorId =? 5 then Resolved (mkSimulateResult (Some [None]))
       else present)
    (fun validatorId =>
       if validatorId =? 5 then Rejected (GatewayError 503) else present)
    (fun _ => Resolved (mkSimulateResult (Some [Some []])))
    (fun _ => present)
    (fun _ => present)
    (Resolved (mkSimulateResult (Some [Some 9]))).

(** C3, as stated, fails.  The pool directory of validator 1 resolves
    empty, to the array without elements, and [fetchValidator] returns
    the validator, with no pools; the config read of validator 5
    resolves without a value while its state read fails, and
    [fetchValidator] throws that failure, not the not-found error. *)
Lemma fetchValidator_empty_directory :
  Query.callGetPools registryNoPools 1 = Resolved (mkSimulateResult (Some [Some []])) /\
  Query.fetchValidator (fun _ _ pools _ _ => pools) registryNoPools 1 = Resolved [] /\
  Query.callGetValidatorConfig registryNoPools 5
    = Resolved (mkSimulateResult (Some [None])) /\
  Query.fetchValidator (fun _ _ pools _ _ => pools) registryNoPools 5
    = Rejected (GatewayError 503) /\
  Query.fetchValidator (fun _ _ pools _ _ => pools) registryNoPools 5
    <> Rejected (ValidatorNotFoundError 5).
Proof.
  repeat split; try reflexivity. discriminate.
Qed.

End FailFast.

(* ================================================================== *)
(** * The entry gating value of [addValidator] *)
(* ================================================================== *)

Module Gating.

Import Async.
Open Scope Z_scope.

Definition byte : Type := Byte.byte.

(** The byte with value [z mod 256]. *)
Definition byte_of_Z (z : Z) : byte :=
  match Byte.of_N (Z.to_N (z mod 256)) with
  | Some b => b
  | None => Byte.x00
  end.

Definition Z_of_byte (b : byte) : Z := Z.of_N (Byte.to_N b).

(** Modelled from the spec: [gatingValueFromBigint] of [utils/bytes] is
    not among the sources.  The specification has it encode "a numeric
    id/amount as a fixed-width big-endian byte string": the [width] low
    base-256 digits of the value, most significant first.  The width is
    not stated; it is a parameter here. *)
Fixpoint gatingValueFromBigint (width : nat) (value : Z) : list byte :=
  match width with
  | O => []
  | S w => gatingValueFromBigint w (value / 256) ++ [byte_of_Z value]
  end.

(** Reading a byte string as a big-endian number. *)
Definition fromBigEndian (bytes : list byte) : Z :=
  fold_left (fun acc b => acc * 256 + Z_of_byte b) bytes 0.

(** The fields of [ValidatorConfigInput] that the encoding reads; the
    form hands them over as strings. *)
Record GatingInput : Type := mkGatingInput {
  entryGatingType : string;
  entryGatingValue : string
}.

(** What [algosdk.decodeAddress] returns. *)
Record Address : Type := mkAddress {
  publicKey : list byte;
  checksum : list byte
}.

Section Codec.

(** The library functions the code calls.  [Number] gives a number or
    [NaN] ([None]); [BigInt] and [decodeAddress] throw on malformed
    text. *)
Variable Number : string -> option Q.
Variable BigInt : string -> Promise Z.
Variable decodeAddress : string -> Promise Address.

Variable width : nat.

(** [Number(values.entryGatingType || 0)]: the empty string is falsy. *)
Definition entryGatingTypeOf (values : GatingInput) : option Q :=
  if String.eqb (entryGatingType values) "" then Some (0 # 1)%Q
  else Number (entryGatingType values).

(** [entryGatingType == 1] *)
Definition isCreatorAccount (entryGatingType : option Q) : bool :=
  match entryGatingType with
  | Some q => Qeq_bool q (1 # 1)
  | None => false
  end.

(** The conditional expression that [addValidator] binds to
    [entryGatingValue]. *)
Definition entryGatingValueOf (values : GatingInput) : Promise (list byte) :=
  if isCreatorAccount (entryGatingTypeOf values)
  then then_ (decodeAddress (entryGatingValue values))
             (fun a => Resolved (publicKey a))
  else then_ (BigInt (entryGatingValue values))
             (fun n => Resolved (gatingValueFromBigint width n)).

(** The gating type that the input declares is 1: the field is not
    empty and holds text that [Number] reads as 1. *)
Definition declaresCreatorAccount (values : GatingInput) : Prop :=
  entryGatingType values <> ""%string /\
  exists q, Number (entryGatingType values) = Some q /\ (q == 1)%Q.

(** The supplied value can be read: as an address when the declared type
    is 1, as an integer otherwise. *)
Definition encodable (values : GatingInput) : Prop :=
  (declaresCreatorAccount values ->
     exists a, decodeAddress (entryGatingValue values) = Resolved a) /\
  (~ declaresCreatorAccount values ->
     exists n, BigInt (entryGatingValue values) = Resolved n).

Lemma isCreatorAccount_iff (values : GatingInput) :
  isCreatorAccount (entryGatingTypeOf values) = true <-> declaresCreatorAccount values.
Proof.
  unfold declaresCreatorAccount, entryGatingTypeOf, isCreatorAccount.
  destruct (String.eqb_spec (entryGatingType values) "") as [E | NE].
  - split; [discriminate | intros [H _]; contradiction].
  - destruct (Number (entryGatingType values)) as [q|].
    + split.
      * intros H. apply Qeq_bool_iff in H. split; [exact NE|]. now exists q.
      * intros (_ & q' & [= <-] & H). now apply Qeq_bool_iff.
    + split; [discriminate | intros (_ & q' & [=] & _)].
Qed.

Lemma declaresCreatorAccount_dec (values : GatingInput) :
  declaresCreatorAccount values \/ ~ declaresCreatorAccount values.
Proof.
  destruct (isCreatorAccount (entryGatingTypeOf values)) eqn:E.
  - left. now apply isCreatorAccount_iff.
  - right. intros H. apply isCreatorAccount_iff in H. congruence.
Qed.

(** The value bound to [entryGatingValue], by the declared type. *)
Lemma entryGatingValueOf_inv (values : GatingInput) (bytes : list byte) :
  entryGatingValueOf values = Resolved bytes ->
  (declaresCreatorAccount values ->
     exists a, decodeAddress (entryGatingValue values) = Resolved a /\
               bytes = publicKey a) /\
  (~ declaresCreatorAccount values ->
     exists n, BigInt (entryGatingValue values) = Resolved n /\
               bytes = gatingValueFromBigint width n).
Proof.
  unfold entryGatingValueOf. intros H.
  destruct (isCreatorAccount (entryGatingTypeOf values)) eqn:E.
  - split; [intros _ | intros N; exfalso; apply N; now apply isCreatorAccount_iff].
    destruct (decodeAddress (entryGatingValue values)) as [a|]; [|discriminate].
    cbn in H. injection H as <-. now exists a.
  - split; [intros D; apply isCreatorAccount_iff in D; congruence | intros _].
    destruct (BigInt (entryGatingValue values)) as [n|]; [|discriminate].
    cbn in H. injection H as <-. now exists n.
Qed.

Lemma entryGatingValueOf_resolves (values : GatingInput) :
  encodable values -> exists bytes, entryGatingValueOf values = Resolved bytes.
Proof.
  intros [Ha Hn]. unfold entryGatingValueOf.
  destruct (isCreatorAccount (entryGatingTypeOf values)) eqn:E.
  - destruct Ha as [a ->]; [now apply isCreatorAccount_iff|]. cbn. eauto.
  - destruct Hn as [n ->].
    + intros D. apply isCreatorAccount_iff in D. congruence.
    + cbn. eauto.
Qed.

End Codec.

(** ** Bytes and big-endian strings *)

Lemma Z_of_byte_of_Z (z : Z) : Z_of_byte (byte_of_Z z) = z mod 256.
Proof.
  unfold Z_of_byte, byte_of_Z.
  pose proof (Z.mod_pos_bound z 256 ltac:(lia)) as Hb.
  destruct (Byte.of_N (Z.to_N (z mod 256))) as [b|] eqn:E.
  - apply Byte.to_of_N in E. rewrite E. lia.
  - apply Byte.of_N_None_iff in E. lia.
Qed.

Lemma length_gatingValueFromBigint (width : nat) (value : Z) :
  length (gatingValueFromBigint width value) = width.
Proof.
  revert value. induction width as [|w IH]; intros value; cbn; [reflexivity|].
  rewrite length_app, IH. cbn. lia.
Qed.

Lemma fromBigEndian_snoc (bytes : list byte) (b : byte) :
  fromBigEndian (bytes ++ [b]) = fromBigEndian bytes * 256 + Z_of_byte b.
Proof. unfold fromBigEndian. now rewrite fold_left_app. Qed.

(** Decoding gives back the value, up to the width. *)
Lemma fromBigEndian_gatingValueFromBigint (width : nat) (value : Z) :
  fromBigEndian (gatingValueFromBigint width value) = value mod 256 ^ Z.of_nat width.
Proof.
  revert value. induction width as [|w IH]; intros value.
  - cbn. now rewrite Z.mod_1_r.
  - cbn [gatingValueFromBigint].
    rewrite fromBigEndian_snoc, IH, Z_of_byte_of_Z.
    rewrite Nat2Z.inj_succ, Z.pow_succ_r by lia.
    rewrite Z.rem_mul_r by lia. lia.
Qed.

(** No leading digit is lost on a value that fits the width. *)
Lemma gatingValueFromBigint_roundtrip (width : nat) (value : Z) :
  0 <= value < 256 ^ Z.of_nat width ->
  fromBigEndian (gatingValueFromBigint width value) = value.
Proof.
  intros H. rewrite fromBigEndian_gatingValueFromBigint. now apply Z.mod_small.
Qed.

End Gating.

(* ================================================================== *)
(** * The two-phase operations: simulate, then execute *)
(* ================================================================== *)

Module TwoPhase.

Import Async.
Open Scope Z_scope.

(** [algosdk.makeEmptyTransactionSigner()], or the signer of a wallet. *)
Inductive Signer : Type :=
| EmptyTransactionSigner
| WalletSigner (wallet : string).

(** A sender: [{ addr, signer }]. *)
Record Account : Type := mkAccount {
  addr : string;
  signer : Signer
}.

Definition FEE_SINK : string :=
  "A7NMWS3NT3IUDMLVO26ULGXGIIOUQ3ND2TXSER6EBGRZNOBOUIQXHIBGDE".

(** A client: the application it is resolved to, and its sender. *)
Record Client : Type := mkClient {
  id : Z;
  clientSender : Account
}.

Record PoolInfo : Type := mkPoolInfo {
  poolAppId : Z;
  totalStakers : Z;
  totalAlgoStaked : Z
}.

(** An ABI return value. *)
Inductive ReturnValue : Type :=
| RUint (n : Z)
| RTuple (fields : list Z).

(** What a simulation and the real submission resolve to.  Of the
    simulated group's result ([simulateResponse.txnGroups[0]]) the
    response carries [failureMessage], which the gateway sets when a
    transaction of the group failed in the contract's logic, and
    [appBudgetAdded]; the operations read the latter only. *)
Record SimulateResponse : Type := mkSimulateResponse {
  simulateReturns : option (list (option ReturnValue));
  failureMessage : option string;
  appBudgetAdded : Z
}.

Record ExecuteResponse : Type := mkExecuteResponse {
  executeReturns : option (list (option ReturnValue))
}.

Section Operations.

(** Taken from outside this file: the network's suggested parameters,
    the registry's app id, the part of the form that does not concern
    gating and its conversion to the remaining fields of the config
    tuple (uses of [Number] and [BigInt] on form strings), and the three
    library functions of the gating codec. *)
Variable SuggestedParams : Type.
Variable RETI_APP_ID : Z.
Variable OtherInput ConfigRest : Type.
Variable restOfConfig : OtherInput -> Promise ConfigRest.
Variable Number : string -> option Q.
Variable BigInt : string -> Promise Z.
Variable decodeAddress : string -> Promise Gating.Address.
Variable gatingWidth : nat.

Record ValidatorConfigInput : Type := mkValidatorConfigInput {
  gating : Gating.GatingInput;
  nfdForInfo : string;
  otherFields : OtherInput
}.

Record ValidatorConfig : Type := mkValidatorConfig {
  configId : Z;
  configNfdForInfo : Z;
  entryGatingType : option Q;
  entryGatingValue : list Gating.byte;
  configRest : ConfigRest
}.

(** A payment transaction object; [group] is what the composer assigns
    when it builds a group around it. *)
Record Payment : Type := mkPayment {
  from : string;
  to : string;
  amount : Z;
  suggestedParams : SuggestedParams;
  group : option Z
}.

Inductive Method : Type :=
| MGetMbrAmounts
| MGas
| MAddValidator (nfdName : string) (config : ValidatorConfig)
| MAddStake (validatorId valueToVerify : Z)
| MRemoveStake (amountToUnstake : Z)
| MEpochBalanceUpdate
| MClaimTokens.

(** One method call of a composed group: the application called, the
    sender, the method with its plain arguments, the payment handed
    over as a transaction-with-signer argument (it precedes the call in
    the group), and the [note] and [sendParams.fee] when given. *)
Record Call : Type := mkCall {
  appId : Z;
  sender : Account;
  method : Method;
  payment : option (Payment * Account);
  note : option string;
  fee : option Q
}.

Definition Group : Type := list Call.

(** The gateway. *)
Variable simulate : Group -> Promise SimulateResponse.
Variable execute : Group -> Promise ExecuteResponse.
Variable getAppReference : Promise string.
Variable getTransactionParams : Promise SuggestedParams.

(** The group id the composer computes and writes into the
    transactions of a group. *)
Variable computeGroupID : Group -> Z.

Inductive Event : Type :=
| Simulated (g : Group)
| Executed (g : Group).

(** ** Asynchronous code with a log of gateway submissions *)

Definition M (A : Type) : Type := list Event -> Promise A * list Event.

Definition ret {A : Type} (a : A) : M A := fun log => (Resolved a, log).

Definition bind {A B : Type} (m : M A) (k : A -> M B) : M B :=
  fun log =>
    match m log with
    | (Resolved a, log') => k a log'
    | (Rejected e, log') => (Rejected e, log')
    end.

Definition lift {A : Type} (p : Promise A) : M A := fun log => (p, log).

Definition simulateM (g : Group) : M SimulateResponse :=
  fun log => (simulate g, log ++ [Simulated g]).

Definition executeM (g : Group) : M ExecuteResponse :=
  fun log => (execute g, log ++ [Executed g]).

Notation "x <- m ;; k" := (bind m (fun x => k))
  (at level 61, m at next level, right associativity).

(** ** Clients *)

Definition makeSimulateValidatorClient (senderAddr : string) : Client :=
  mkClient RETI_APP_ID
    (mkAccount (if String.eqb senderAddr "" then FEE_SINK else senderAddr)
               EmptyTransactionSigner).

Definition makeValidatorClient (signer : Signer) (activeAddress : string) : Client :=
  mkClient RETI_APP_ID (mkAccount activeAddress signer).

Definition makeSimulateStakingPoolClient (poolAppId : Z) (senderAddr : string)
  : Client :=
  mkClient poolAppId (mkAccount senderAddr EmptyTransactionSigner).

Definition makeStakingPoolClient (poolAppId : Z) (signer : Signer)
    (activeAddress : string) : Client :=
  mkClient poolAppId (mkAccount activeAddress signer).

(** A call composed on a client, with the client's sender. *)
Definition on (c : Client) (m : Method) (pay : option (Payment * Account))
    (note : option string) (fee : option Q) : Call :=
  mkCall (id c) (clientSender c) m pay note fee.

(** [algosdk.makePaymentTxnWithSuggestedParamsFromObject]: a fresh
    transaction, in no group. *)
Definition makePaymentTxn (from to : string) (amount : Z) (sp : SuggestedParams)
  : Payment :=
  mkPayment from to amount sp None.

(** The state of a payment object after the composer has built the
    group [g] around it, and after [txn.group = undefined]. *)
Definition grouped (g : Group) (p : Payment) : Payment :=
  mkPayment (from p) (to p) (amount p) (suggestedParams p) (Some (computeGroupID g)).

Definition ungrouped (p : Payment) : Payment :=
  mkPayment (from p) (to p) (amount p) (suggestedParams p) None.

(** [result.returns![i]] *)
Definition returnAt (returns : option (list (option ReturnValue))) (i : nat)
  : Promise (option ReturnValue) :=
  match returns with
  | None => Rejected TypeError
  | Some l => Resolved (nth i l None)
  end.

Definition microAlgos (n : Z) : Q := inject_Z n.

(** ** The five operations *)

Definition addValidator (values : ValidatorConfigInput) (nfdAppId : Z)
    (signer : Signer) (activeAddress : string) : M (option ReturnValue) :=
  let validatorClient := makeValidatorClient signer activeAddress in
  validatorAppRef <- lift getAppReference ;;
  mbrAmounts <- simulateM
    [mkCall (id validatorClient) (mkAccount activeAddress EmptyTransactionSigner)
            MGetMbrAmounts None None None] ;;
  mbrTuple <- lift (returnAt (simulateReturns mbrAmounts) 0) ;;
  validatorMbr <- lift (match mbrTuple with
                        | Some (RTuple (validatorMbr :: _)) => Resolved validatorMbr
                        | _ => Rejected TypeError
                        end) ;;
  suggestedParams <- lift getTransactionParams ;;
  let payValidatorMbr :=
    makePaymentTxn activeAddress validatorAppRef (JsNumber.Number validatorMbr)
                   suggestedParams in
  let entryGatingType := Gating.entryGatingTypeOf Number (gating values) in
  entryGatingValue <- lift (Gating.entryGatingValueOf Number BigInt decodeAddress
                              gatingWidth (gating values)) ;;
  rest <- lift (restOfConfig (otherFields values)) ;;
  let validatorConfig :=
    mkValidatorConfig 0 nfdAppId entryGatingType entryGatingValue rest in
  let simulateValidatorClient := makeSimulateValidatorClient activeAddress in
  let simulated :=
    [on simulateValidatorClient
        (MAddValidator (nfdForInfo values) validatorConfig)
        (Some (payValidatorMbr, mkAccount activeAddress EmptyTransactionSigner))
        None (Some (microAlgos 240000))] in
  simulateResult <- simulateM simulated ;;
  let payValidatorMbr := ungrouped (grouped simulated payValidatorMbr) in
  let feesAmount := Fees.feesAmount Fees.AddValidator (appBudgetAdded simulateResult) in
  result <- executeM
    [on validatorClient
        (MAddValidator (nfdForInfo values) validatorConfig)
        (Some (payValidatorMbr, mkAccount activeAddress signer))
        None (Some feesAmount)] ;;
  lift (returnAt (executeReturns result) 0).

Definition addStake (validatorId stakeAmount valueToVerify : Z)
    (signer : Signer) (activeAddress : string) : M (option ReturnValue) :=
  let validatorClient := makeValidatorClient signer activeAddress in
  validatorAppRef <- lift getAppReference ;;
  suggestedParams <- lift getTransactionParams ;;
  let stakeTransferPayment :=
    makePaymentTxn activeAddress validatorAppRef stakeAmount suggestedParams in
  let simulateValidatorClient := makeSimulateValidatorClient activeAddress in
  let simulated :=
    [on simulateValidatorClient MGas None None None;
     on simulateValidatorClient (MAddStake validatorId valueToVerify)
        (Some (stakeTransferPayment, mkAccount activeAddress EmptyTransactionSigner))
        None (Some (microAlgos 240000))] in
  simulateResults <- simulateM simulated ;;
  let stakeTransferPayment := ungrouped (grouped simulated stakeTransferPayment) in
  let feesAmount := Fees.feesAmount Fees.AddStake (appBudgetAdded simulateResults) in
  results <- executeM
    [on validatorClient MGas None None None;
     on validatorClient (MAddStake validatorId valueToVerify)
        (Some (stakeTransferPayment, mkAccount activeAddress signer))
        None (Some feesAmount)] ;;
  lift (returnAt (executeReturns results) 1).

Definition removeStake (poolAppId amountToUnstake : Z)
    (signer : Signer) (activeAddress : string) : M unit :=
  let stakingPoolSimulateClient := makeSimulateStakingPoolClient poolAppId activeAddress in
  simulateResult <- simulateM
    [on stakingPoolSimulateClient MGas None (Some "1"%string) (Some (microAlgos 0));
     on stakingPoolSimulateClient MGas None (Some "2"%string) (Some (microAlgos 0));
     on stakingPoolSimulateClient (MRemoveStake amountToUnstake) None None
        (Some (microAlgos 240000))] ;;
  let feesAmount := Fees.feesAmount Fees.RemoveStake (appBudgetAdded simulateResult) in
  let stakingPoolClient := makeStakingPoolClient poolAppId signer activeAddress in
  _ <- executeM
    [on stakingPoolClient MGas None (Some "1"%string) (Some (microAlgos 0));
     on stakingPoolClient MGas None (Some "2"%string) (Some (microAlgos 0));
     on stakingPoolClient (MRemoveStake amountToUnstake) None None
        (Some feesAmount)] ;;
  ret tt.

(** The [catch] of [epochBalanceUpdate] logs the error and throws it
    again. *)
Definition epochBalanceUpdate (poolAppId : Z)
    (signer : Signer) (activeAddress : string) : M unit :=
  let stakingPoolSimulateClient := makeSimulateStakingPoolClient poolAppId activeAddress in
  simulateResult <- simulateM
    [on stakingPoolSimulateClient MGas None (Some "1"%string) None;
     on stakingPoolSimulateClient MGas None (Some "2"%string) None;
     on stakingPoolSimulateClient MEpochBalanceUpdate None None
        (Some (microAlgos 240000))] ;;
  let feesAmount :=
    Fees.feesAmount Fees.EpochBalanceUpdate (appBudgetAdded simulateResult) in
  let stakingPoolClient := makeStakingPoolClient poolAppId signer activeAddress in
  _ <- executeM
    [on stakingPoolClient MGas None (Some "1"%string) (Some (microAlgos 0));
     on stakingPoolClient MGas None (Some "2"%string) (Some (microAlgos 0));
     on stakingPoolClient MEpochBalanceUpdate None None (Some feesAmount)] ;;
  ret tt.

(** [claimTokens]: each pass of a [for (const pool of pools)] loop adds
    three calls on that pool's client to the composer. *)
Definition claimTokens (pools : list PoolInfo)
    (signer : Signer) (activeAddress : string) : M unit :=
  let atc1 :=
    flat_map (fun pool =>
      let client := makeSimulateStakingPoolClient (poolAppId pool) activeAddress in
      [on client MGas None (Some "1"%string) (Some (microAlgos 0));
       on client MGas None (Some "2"%string) (Some (microAlgos 0));
       on client MClaimTokens None None (Some (microAlgos 240000))]) pools in
  simulateResult <- simulateM atc1 ;;
  let feesAmount := Fees.feesAmount Fees.ClaimTokens (appBudgetAdded simulateResult) in
  let atc2 :=
    flat_map (fun pool =>
      let client := makeStakingPoolClient (poolAppId pool) signer activeAddress in
      [on client MGas None (Some "1"%string) (Some (microAlgos 0));
       on client MGas None (Some "2"%string) (Some (microAlgos 0));
       on client MClaimTokens None None (Some feesAmount)]) pools in
  _ <- executeM atc2 ;;
  ret tt.

(** A request for one of the five operations. *)
Inductive Request : Type :=
| AddValidator (values : ValidatorConfigInput) (nfdAppId : Z)
| AddStake (validatorId stakeAmount valueToVerify : Z)
| RemoveStake (poolAppId amountToUnstake : Z)
| EpochBalanceUpdate (poolAppId : Z)
| ClaimTokens (pools : list PoolInfo).

Definition operationOf (req : Request) : Fees.Operation :=
  match req with
  | AddValidator _ _ => Fees.AddValidator
  | AddStake _ _ _ => Fees.AddStake
  | RemoveStake _ _ => Fees.RemoveStake
  | EpochBalanceUpdate _ => Fees.EpochBalanceUpdate
  | ClaimTokens _ => Fees.ClaimTokens
  end.

(** The outcome of a request (its return value left aside) and the
    gateway submissions it made, in order. *)
Definition perform (req : Request) (signer : Signer) (activeAddress : string)
  : Promise unit * list Event :=
  match req with
  | AddValidator values nfdAppId =>
      (_ <- addValidator values nfdAppId signer activeAddress ;; ret tt) []
  | AddStake validatorId stakeAmount valueToVerify =>
      (_ <- addStake validatorId stakeAmount valueToVerify signer activeAddress ;;
       ret tt) []
  | RemoveStake poolAppId amountToUnstake =>
      removeStake poolAppId amountToUnstake signer activeAddress []
  | EpochBalanceUpdate poolAppId =>
      epochBalanceUpdate poolAppId signer activeAddress []
  | ClaimTokens pools => claimTokens pools signer activeAddress []
  end.

(** What is left of a call when its sender, the signer of its payment
    and its fee are put aside. *)
Definition nobody : Account := mkAccount "" EmptyTransactionSigner.

Definition core (c : Call) : Call :=
  mkCall (appId c) nobody (method c)
         (option_map (fun ps => (fst ps, nobody)) (payment c))
         (note c) None.

(** The payment of every call of the group is in no group. *)
Definition paymentsUngrouped (g : Group) : Prop :=
  forall c p s, In c g -> payment c = Some (p, s) -> group p = None.

(** ** What a request asks for *)

(** The sender and the amount of the payment a call carries. *)
Definition transfer (c : Call) : option (string * Z) :=
  option_map (fun ps => (from (fst ps), amount (fst ps))) (payment c).

(** Which application a call is made on, which method with which
    arguments, and what it transfers. *)
Definition outline (c : Call) : Z * Method * option (string * Z) :=
  (appId c, method c, transfer c).

(** [g] is the group of the requested operation: its calls are, in
    order, the calls the operation is made of, on the application and
    with the arguments of the request, paid by the caller.  (The read of
    the MBR amounts that [addValidator] simulates first is no such
    group.) *)
Definition requested (req : Request) (activeAddress : string) (g : Group) : Prop :=
  match req with
  | AddValidator values nfdAppId =>
      exists config validatorMbr,
        map outline g
        = [(RETI_APP_ID, MAddValidator (nfdForInfo values) config,
            Some (activeAddress, validatorMbr))] /\
        configId config = 0 /\ configNfdForInfo config = nfdAppId
  | AddStake validatorId stakeAmount valueToVerify =>
      map outline g
      = [(RETI_APP_ID, MGas, None);
         (RETI_APP_ID, MAddStake validatorId valueToVerify,
          Some (activeAddress, stakeAmount))]
  | RemoveStake pool amountToUnstake =>
      map outline g
      = [(pool, MGas, None); (pool, MGas, None);
         (pool, MRemoveStake amountToUnstake, None)]
  | EpochBalanceUpdate pool =>
      map outline g
      = [(pool, MGas, None); (pool, MGas, None); (pool, MEpochBalanceUpdate, None)]
  | ClaimTokens pools =>
      map outline g
      = flat_map (fun pool =>
          [(poolAppId pool, MGas, None); (poolAppId pool, MGas, None);
           (poolAppId pool, MClaimTokens, None)]) pools
  end.

(** Nothing that the operation does before it simulates its group
    throws: for [addValidator] the app reference, the read of the MBR
    amounts, the suggested parameters and the conversions of the form's
    fields; for [addStake] the app reference and the suggested
    parameters. *)
Definition prepared (req : Request) (activeAddress : string) : Prop :=
  match req with
  | AddValidator values _ =>
      (exists validatorAppRef, getAppReference = Resolved validatorAppRef) /\
      (exists mbrAmounts validatorMbr others,
         simulate [mkCall RETI_APP_ID (mkAccount activeAddress EmptyTransactionSigner)
                          MGetMbrAmounts None None None] = Resolved mbrAmounts /\
         returnAt (simulateReturns mbrAmounts) 0
           = Resolved (Some (RTuple (validatorMbr :: others)))) /\
      (exists suggestedParams, getTransactionParams = Resolved suggestedParams) /\
      Gating.encodable Number BigInt decodeAddress (gating values) /\
      (exists rest, restOfConfig (otherFields values) = Resolved rest)
  | AddStake _ _ _ =>
      (exists validatorAppRef, getAppReference = Resolved validatorAppRef) /\
      (exists suggestedParams, getTransactionParams = Resolved suggestedParams)
  | RemoveStake _ _ | EpochBalanceUpdate _ | ClaimTokens _ => True
  end.


(** ** Runs of the operations *)

Ltac run_in H :=
  unfold perform, addValidator, addStake, removeStake, epochBalanceUpdate,
    claimTokens, bind, lift, simulateM, executeM, ret, on,
    makeValidatorClient, makeSimulateValidatorClient,
    makeStakingPoolClient, makeSimulateStakingPoolClient in H;
  cbn [app id clientSender] in H;
  repeat match type of H with
         | context [match ?p with Resolved _ => _ | Rejected _ => _ end] =>
             destruct p eqn:?
         | context [match ?p with Some _ => _ | None => _ end] =>
             destruct p eqn:?
         | context [match ?p with RUint _ => _ | RTuple _ => _ end] =>
             destruct p eqn:?
         | context [match ?p with nil => _ | cons _ _ => _ end] =>
             destruct p eqn:?
         end;
  injection H as <- <-.

Ltac settle :=
  repeat match goal with
         | H : In _ (_ :: _) |- _ => destruct H as [H | H]
         | H : In _ [] |- _ => destruct H
         | H : Simulated _ = Simulated _ |- _ => injection H as <-
         | H : Executed _ = Executed _ |- _ => injection H as <-
         | H : Simulated _ = Executed _ |- _ => discriminate H
         | H : Executed _ = Simulated _ |- _ => discriminate H
         end.


Ltac in_log := cbn [In]; solve [auto 10].


Ltac same_outcome :=
  repeat match goal with
         | H : Resolved _ = Resolved _ |- _ => injection H as ?; subst
         | H : Resolved _ = Rejected _ |- _ => discriminate H
         | H : Rejected _ = Resolved _ |- _ => discriminate H
         | H1 : ?a = Resolved _, H2 : ?a = Resolved _ |- _ =>
             rewrite H1 in H2; injection H2 as ?; subst
         | H1 : ?a = Resolved _, H2 : ?a = Rejected _ |- _ =>
             rewrite H1 in H2; discriminate H2
         | H : match Some (RTuple (_ :: _)) with Some _ => _ | None => _ end
               = Rejected _ |- _ => discriminate H
         end.

Ltac last_simulated L :=
  lazymatch L with
  | Simulated ?g :: ?rest =>
      lazymatch rest with
      | context [Simulated _] => last_simulated rest
      | _ => constr:(g)
      end
  | _ :: ?rest => last_simulated rest
  end.

Lemma ungrouped_grouped (g : Group) (from to : string) (amount : Z)
    (sp : SuggestedParams) :
  ungrouped (grouped g (makePaymentTxn from to amount sp))
  = makePaymentTxn from to amount sp.
Proof. reflexivity. Qed.

Lemma claimTokens_core (pools : list PoolInfo) (signer : Signer)
    (activeAddress : string) (fee1 fee2 : Q) :
  map core
    (flat_map (fun pool =>
       [mkCall (poolAppId pool) (mkAccount activeAddress signer) MGas None
               (Some "1"%string) (Some (microAlgos 0));
        mkCall (poolAppId pool) (mkAccount activeAddress signer) MGas None
               (Some "2"%string) (Some (microAlgos 0));
        mkCall (poolAppId pool) (mkAccount activeAddress signer) MClaimTokens None
               None (Some fee2)]) pools)
  = map core
    (flat_map (fun pool =>
       [mkCall (poolAppId pool) (mkAccount activeAddress EmptyTransactionSigner)
               MGas None (Some "1"%string) (Some (microAlgos 0));
        mkCall (poolAppId pool) (mkAccount activeAddress EmptyTransactionSigner)
               MGas None (Some "2"%string) (Some (microAlgos 0));
        mkCall (poolAppId pool) (mkAccount activeAddress EmptyTransactionSigner)
               MClaimTokens None None (Some fee1)]) pools).
Proof.
  induction pools as [|pool pools IH]; [reflexivity|].
  cbn [flat_map app map]. rewrite IH. reflexivity.
Qed.

Lemma claimTokens_no_payment (pools : list PoolInfo) (a : Account) (fee : Q) :
  paymentsUngrouped
    (flat_map (fun pool =>
       [mkCall (poolAppId pool) a MGas None (Some "1"%string) (Some (microAlgos 0));
        mkCall (poolAppId pool) a MGas None (Some "2"%string) (Some (microAlgos 0));
        mkCall (poolAppId pool) a MClaimTokens None None (Some fee)]) pools).
Proof.
  intros c p s Hin Hpay. apply in_flat_map in Hin.
  destruct Hin as (pool & _ & Hc). settle; subst c; discriminate.
Qed.

Ltac ungrouped_payments :=
  let c := fresh "c" in
  let Hc := fresh "Hc" in
  let Hp := fresh "Hp" in
  intros c ? ? Hc Hp; settle; subst c; cbn in Hp;
  solve [discriminate | injection Hp as <- _; reflexivity].


Lemma claimTokens_outline (pools : list PoolInfo) (a : Account) (q : Q) :
  map outline
    (flat_map (fun pool =>
       [mkCall (poolAppId pool) a MGas None (Some "1"%string) (Some (microAlgos 0));
        mkCall (poolAppId pool) a MGas None (Some "2"%string) (Some (microAlgos 0));
        mkCall (poolAppId pool) a MClaimTokens None None (Some q)]) pools)
  = flat_map (fun pool =>
      [(poolAppId pool, MGas, None); (poolAppId pool, MGas, None);
       (poolAppId pool, MClaimTokens, None)]) pools.
Proof.
  induction pools as [|pool pools IH]; [reflexivity|].
  cbn [flat_map app map]. rewrite IH. reflexivity.
Qed.


Ltac is_requested :=
  unfold requested;
  first [ apply claimTokens_outline
        | reflexivity
        | eexists; eexists; split; [reflexivity | split; reflexivity] ].

(** ** From the request to the execution *)

(** An operation whose preparations do not throw submits its group for
    simulation. *)
Lemma prepared_simulates (req : Request) (signer : Signer)
    (activeAddress : string) (r : Promise unit) (events : list Event) :
  perform req signer activeAddress = (r, events) ->
  prepared req activeAddress ->
  exists g1, In (Simulated g1) events /\ requested req activeAddress g1.
Proof.
  intros Hrun Hprep.
  destruct req; cbn [prepared] in Hprep.
  1: destruct Hprep as ((? & ?) & (? & ? & ? & ? & ?) & (? & ?) & Henc & (? & ?));
     apply Gating.entryGatingValueOf_resolves with (width := gatingWidth) in Henc;
     destruct Henc as (? & ?).
  2: destruct Hprep as ((? & ?) & (? & ?)).
  all: run_in Hrun; same_outcome.
  all: match goal with
       | |- exists g1, In (Simulated g1) ?L /\ _ =>
           let g := last_simulated L in exists g
       end; (split; [in_log | is_requested]).
Qed.


(** Every executed group is the rebuilt group of a simulation that
    resolved. *)
Lemma executed_simulated (req : Request) (signer : Signer)
    (activeAddress : string) (r : Promise unit) (events : list Event) :
  perform req signer activeAddress = (r, events) ->
  forall g2, In (Executed g2) events ->
    exists g1 resp,
      In (Simulated g1) events /\ simulate g1 = Resolved resp /\
      requested req activeAddress g1 /\ requested req activeAddress g2 /\
      map core g2 = map core g1 /\
      paymentsUngrouped g1 /\ paymentsUngrouped g2.
Proof.
  intros Hrun g2 Hex.
  destruct req; run_in Hrun; settle;
    match goal with
    | |- exists g1 resp, In (Simulated g1) ?L /\ _ =>
        let g := last_simulated L in exists g
    end;
    (eexists; split; [in_log|]);
    (split; [eassumption|]);
    (split; [is_requested|]);
    (split; [is_requested|]);
    (split; [first [reflexivity | apply claimTokens_core]|]);
    (split; first [apply claimTokens_no_payment | ungrouped_payments]).
Qed.

(** An operation that returns has executed its group, with success. *)
Lemma resolved_executed (req : Request) (signer : Signer)
    (activeAddress : string) (r : Promise unit) (events : list Event) :
  perform req signer activeAddress = (r, events) ->
  r = Resolved tt ->
  exists g2 out, In (Executed g2) events /\ execute g2 = Resolved out.
Proof.
  intros Hrun Hr.
  destruct req; run_in Hrun; try discriminate Hr;
    (eexists; eexists; split; [in_log | eassumption]).
Qed.





(** C9.  In every group that [addValidator] submits, the registration
    call carries the entry gating value encoded by the gating type the
    input declares: for type 1 the public key that [decodeAddress]
    extracts from the supplied address (32 raw bytes, by the contract of
    that function); for every other type, no type and a type that is no
    number included, the fixed-width big-endian byte string of the
    supplied number.  The registration is simulated whenever the
    preparations do not throw, and has been executed whenever
    [addValidator] returns. *)
Theorem addValidator_entryGatingValue (values : ValidatorConfigInput)
    (nfdAppId : Z) (signer : Signer) (activeAddress : string)
    (r : Promise unit) (events : list Event) :
  perform (AddValidator values nfdAppId) signer activeAddress = (r, events) ->
  (forall g c nfdName config,
     In (Simulated g) events \/ In (Executed g) events ->
     In c g -> method c = MAddValidator nfdName config ->
     (Gating.declaresCreatorAccount Number (gating values) ->
        exists a,
          decodeAddress (Gating.entryGatingValue (gating values)) = Resolved a /\
          entryGatingValue config = Gating.publicKey a /\
          ((forall s a', decodeAddress s = Resolved a' ->
                         length (Gating.publicKey a') = 32%nat) ->
           length (entryGatingValue config) = 32%nat)) /\
     (~ Gating.declaresCreatorAccount Number (gating values) ->
        exists n,
          BigInt (Gating.entryGatingValue (gating values)) = Resolved n /\
          entryGatingValue config = Gating.gatingValueFromBigint gatingWidth n /\
          length (entryGatingValue config) = gatingWidth /\
          Gating.fromBigEndian (entryGatingValue config)
            = n mod 256 ^ Z.of_nat gatingWidth)) /\
  (prepared (AddValidator values nfdAppId) activeAddress ->
     exists g c nfdName config,
       In (Simulated g) events /\ In c g /\ method c = MAddValidator nfdName config) /\
  (r = Resolved tt ->
     exists g c nfdName config,
       In (Executed g) events /\ In c g /\ method c = MAddValidator nfdName config).
Proof.
  intros Hrun. split; [|split].
  - intros g c nfdName config Hg Hc Hm.
    assert (Hv : Gating.entryGatingValueOf Number BigInt decodeAddress gatingWidth
                   (gating values) = Resolved (entryGatingValue config)).
    { destruct Hg as [Hg | Hg]; run_in Hrun; settle; subst c;
        cbn in Hm; try discriminate Hm; injection Hm as _ <-; reflexivity. }
    destruct (@Gating.entryGatingValueOf_inv Number BigInt decodeAddress gatingWidth
                (gating values) (entryGatingValue config) Hv) as [Ha Hn].
    split.
    + intros D. destruct (Ha D) as (a & Hdec & Hkey).
      exists a. split; [exact Hdec|]. split; [exact Hkey|].
      intros Hlen. rewrite Hkey. now apply Hlen with (s := Gating.entryGatingValue
                                                           (gating values)).
    + intros D. destruct (Hn D) as (n & Hbig & Hbytes).
      exists n. split; [exact Hbig|]. split; [exact Hbytes|]. rewrite Hbytes.
      split; [apply Gating.length_gatingValueFromBigint
             | apply Gating.fromBigEndian_gatingValueFromBigint].
  - intros Hprep.
    destruct (@prepared_simulates (AddValidator values nfdAppId) signer activeAddress
                r events Hrun Hprep) as (g & Hin & config & mbr & Ho & _).
    destruct g as [|c [|c' g]]; try discriminate Ho.
    injection Ho as _ Hm _.
    exists [c], c, (nfdForInfo values), config. split; [exact Hin|].
    split; [now left | exact Hm].
  - intros Hr.
    destruct (@resolved_executed (AddValidator values nfdAppId) signer activeAddress
                r events Hrun Hr) as (g2 & out & Hex & _).
    destruct (@executed_simulated (AddValidator values nfdAppId) signer activeAddress
                r events Hrun g2 Hex)
      as (_ & _ & _ & _ & _ & (config & mbr & Ho & _) & _).
    destruct g2 as [|c [|c' g2]]; try discriminate Ho.
    injection Ho as _ Hm _.
    exists [c], c, (nfdForInfo values), config. split; [exact Hex|].
    split; [now left | exact Hm].
Qed.

(** The fee of the executed group is the one computed from the budget
    that the simulation reported: on every call but the [gas] calls, which
    carry a fee of zero or none. *)
Lemma executed_fee (req : Request) (signer : Signer)
    (activeAddress : string) (r : Promise unit) (events : list Event) :
  perform req signer activeAddress = (r, events) ->
  forall g2, In (Executed g2) events ->
    exists g1 resp,
      In (Simulated g1) events /\ simulate g1 = Resolved resp /\
      forall c, In c g2 ->
        if match method c with MGas => true | _ => false end
        then fee c = Some (microAlgos 0) \/ fee c = None
        else fee c = Some (Fees.feesAmount (operationOf req) (appBudgetAdded resp)).
Proof.
  intros Hrun g2 Hex.
  destruct req; run_in Hrun; settle;
    (eexists; eexists; (split; [| split; [eassumption |]]); [cbn; tauto |]);
    intros c Hc;
    try (apply in_flat_map in Hc; destruct Hc as (pool & _ & Hc));
    settle; subst c; cbn; auto.
Qed.

(** ** Further properties of the runs *)

(** An operation submits at most one group for execution, as the last
    thing it submits; when the gateway rejects it, the operation throws
    that rejection. *)
Lemma execution_is_last (req : Request) (signer : Signer)
    (activeAddress : string) (r : Promise unit) (events : list Event) :
  perform req signer activeAddress = (r, events) ->
  forall g, In (Executed g) events ->
    (exists sims, events = sims ++ [Executed g] /\
                  forall g', ~ In (Executed g') sims) /\
    (forall e, execute g = Rejected e -> r = Rejected e).
Proof.
  intros Hrun g Hex.
  destruct req; run_in Hrun; settle;
    (split;
     [ match goal with
       | |- exists sims, ?L = sims ++ _ /\ _ => exists (removelast L)
       end;
       (split; [reflexivity | intros g' Hg'; cbn [removelast] in Hg'; settle])
     | intros e He; cbn [Fees.feesAmount] in *; congruence ]).
Qed.

(** Simulations are never signed by the wallet: every call of a
    simulated group, and the payment it carries, has the empty signer.
    The executed group is sent and signed by the caller throughout. *)
Lemma signers_by_phase (req : Request) (signer : Signer)
    (activeAddress : string) (r : Promise unit) (events : list Event) :
  perform req signer activeAddress = (r, events) ->
  (forall g c, In (Simulated g) events -> In c g ->
     TwoPhase.signer (sender c) = EmptyTransactionSigner /\
     forall p s, payment c = Some (p, s) ->
       s = mkAccount activeAddress EmptyTransactionSigner) /\
  (forall g c, In (Executed g) events -> In c g ->
     sender c = mkAccount activeAddress signer /\
     forall p s, payment c = Some (p, s) -> s = mkAccount activeAddress signer).
Proof.
  intros Hrun.
  destruct req; run_in Hrun;
    (split; intros g c Hg Hc; settle;
     try (apply in_flat_map in Hc; destruct Hc as (pool & _ & Hc));
     settle; subst c; cbn;
     (split; [reflexivity | intros p s Hp; congruence])).
Qed.

(** A gating value that cannot be encoded (a malformed address for
    type 1, a malformed number otherwise) makes [addValidator] throw
    before the registration is simulated or executed: at most the
    read of the MBR amounts has been submitted. *)
Lemma addValidator_bad_gating_value (values : ValidatorConfigInput) (nfdAppId : Z)
    (signer : Signer) (activeAddress : string) (e : Error)
    (r : Promise unit) (events : list Event) :
  Gating.entryGatingValueOf Number BigInt decodeAddress gatingWidth (gating values)
    = Rejected e ->
  perform (AddValidator values nfdAppId) signer activeAddress = (r, events) ->
  (exists e', r = Rejected e') /\
  (forall g, ~ In (Executed g) events) /\
  (forall g c, In (Simulated g) events -> In c g -> method c = MGetMbrAmounts).
Proof.
  intros Hbad Hrun.
  run_in Hrun; try congruence;
    (split; [eauto | split; [intros g Hg; settle |]]);
    intros g c Hg Hc; settle; subst c; reflexivity.
Qed.

End Operations.

Arguments MGetMbrAmounts {ConfigRest}.
Arguments MGas {ConfigRest}.
Arguments MAddStake {ConfigRest} validatorId valueToVerify.
Arguments MRemoveStake {ConfigRest} amountToUnstake.
Arguments MEpochBalanceUpdate {ConfigRest}.
Arguments MClaimTokens {ConfigRest}.
Arguments AddStake {OtherInput} validatorId stakeAmount valueToVerify.
Arguments RemoveStake {OtherInput} poolAppId amountToUnstake.
Arguments EpochBalanceUpdate {OtherInput} poolAppId.
Arguments ClaimTokens {OtherInput} pools.

End TwoPhase.

(* ================================================================== *)
(** * A gateway to run the operations against *)
(* ================================================================== *)

Module Demo.

Import Async.
Import TwoPhase.
Open Scope Z_scope.

(** Decimal text, as the form supplies it. *)
Fixpoint digits (s : string) (acc : Z) : option Z :=
  match s with
  | EmptyString => Some acc
  | String c rest =>
      let d := Z.of_nat (nat_of_ascii c) - 48 in
      if (0 <=? d) && (d <=? 9) then digits rest (10 * acc + d) else None
  end.

Definition Number (s : string) : option Q := option_map inject_Z (digits s 0).

Definition BigInt (s : string) : Promise Z :=
  match digits s 0 with
  | Some n => Resolved n
  | None => Rejected (GatewayError 0)
  end.

(** A stand-in for [algosdk.decodeAddress]: 32 bytes of key, 4 of
    checksum. *)
Definition decodeAddress (s : string) : Promise Gating.Address :=
  if String.eqb s "" then Rejected (GatewayError 1)
  else Resolved (Gating.mkAddress (repeat Byte.x2a 32) (repeat Byte.x00 4)).

Definition Call' : Type := Call unit unit.
Definition Group' : Type := list Call'.

(** The ledger refuses to unstake a non-positive amount and reports a
    budget of 1400 otherwise. *)
Definition rejects (c : Call') : bool :=
  match method c with
  | MRemoveStake amountToUnstake => amountToUnstake <=? 0
  | _ => false
  end.

Definition simulate (g : Group') : Promise SimulateResponse :=
  if existsb rejects g then Rejected (GatewayError 400)
  else Resolved (mkSimulateResponse (Some [Some (RTuple [1000000; 0; 0; 0])])
                                    None 1400).

Definition execute (g : Group') : Promise ExecuteResponse :=
  Resolved (mkExecuteResponse (Some [Some (RUint 1); Some (RTuple [1; 1; 501])])).

Definition run (req : Request unit) : Promise unit * list (Event unit unit) :=
  perform 1010 (fun _ => Resolved tt) Number BigInt decodeAddress 8
          simulate execute (Resolved "APPADDRESS"%string) (Resolved tt)
          (fun g => Z.of_nat (length g))
          req (WalletSigner "wallet") "STAKER".







(** A successful [addStake]: what is simulated, what is executed. *)
Definition stakePayment : Payment unit :=
  mkPayment "STAKER" "APPADDRESS" 5000000 tt None.

Definition addStakeSimulated : Group' :=
  [mkCall 1010 (mkAccount "STAKER" EmptyTransactionSigner) MGas None None None;
   mkCall 1010 (mkAccount "STAKER" EmptyTransactionSigner) (MAddStake 7 0)
     (Some (stakePayment, mkAccount "STAKER" EmptyTransactionSigner))
     None (Some (microAlgos 240000))].

Definition addStakeExecuted : Group' :=
  [mkCall 1010 (mkAccount "STAKER" (WalletSigner "wallet")) MGas None None None;
   mkCall 1010 (mkAccount "STAKER" (WalletSigner "wallet")) (MAddStake 7 0)
     (Some (stakePayment, mkAccount "STAKER" (WalletSigner "wallet")))
     None (Some (Fees.feesAmount Fees.AddStake 1400))].

Example addStake_run :
  run (AddStake 7 5000000 0)
  = (Resolved tt, [Simulated addStakeSimulated; Executed addStakeExecuted]).
Proof. reflexivity. Qed.


(** A claim of the rewards of two pools. *)
Definition twoPools : list PoolInfo := [mkPoolInfo 501 3 400; mkPoolInfo 502 5 1000].

Definition claimSimulated : Group' :=
  flat_map (fun pool =>
    [mkCall (poolAppId pool) (mkAccount "STAKER" EmptyTransactionSigner) MGas None
            (Some "1"%string) (Some (microAlgos 0));
     mkCall (poolAppId pool) (mkAccount "STAKER" EmptyTransactionSigner) MGas None
            (Some "2"%string) (Some (microAlgos 0));
     mkCall (poolAppId pool) (mkAccount "STAKER" EmptyTransactionSigner) MClaimTokens
            None None (Some (microAlgos 240000))]) twoPools.


(** The fees of that executed group: 2000 on the [claimTokens] call of
    each of the two pools. *)
Definition claimExecuted : Group' :=
  flat_map (fun pool =>
    [mkCall (poolAppId pool) (mkAccount "STAKER" (WalletSigner "wallet")) MGas None
            (Some "1"%string) (Some (microAlgos 0));
     mkCall (poolAppId pool) (mkAccount "STAKER" (WalletSigner "wallet")) MGas None
            (Some "2"%string) (Some (microAlgos 0));
     mkCall (poolAppId pool) (mkAccount "STAKER" (WalletSigner "wallet")) MClaimTokens
            None None (Some (inject_Z 2000))]) twoPools.

Example claimTokens_run :
  run (ClaimTokens twoPools)
  = (Resolved tt, [Simulated claimSimulated; Executed claimExecuted]) /\
  map (@fee unit unit) claimExecuted
  = [Some (inject_Z 0); Some (inject_Z 0); Some (inject_Z 2000);
     Some (inject_Z 0); Some (inject_Z 0); Some (inject_Z 2000)].
Proof. split; reflexivity. Qed.

(** Two registrations: gated by the assets of a creator account, and by
    an asset id. *)
Definition creatorValidator : Request unit :=
  AddValidator (mkValidatorConfigInput (Gating.mkGatingInput "1" "CREATORADDRESS")
                                       "" tt) 0.

Definition assetValidator : Request unit :=
  AddValidator (mkValidatorConfigInput (Gating.mkGatingInput "2" "1234") "" tt) 0.

Lemma addValidator_entryGatingValue_witness :
  fst (run creatorValidator) = Resolved tt /\
  fst (run assetValidator) = Resolved tt /\
  (forall g c nfdName config,
     In (Simulated g) (snd (run creatorValidator)) \/
     In (Executed g) (snd (run creatorValidator)) ->
     In c g -> method c = MAddValidator nfdName config ->
     entryGatingValue config = repeat Byte.x2a 32) /\
  (forall g c nfdName config,
     In (Simulated g) (snd (run assetValidator)) \/
     In (Executed g) (snd (run assetValidator)) ->
     In c g -> method c = MAddValidator nfdName config ->
     entryGatingValue config
     = [Byte.x00; Byte.x00; Byte.x00; Byte.x00;
        Byte.x00; Byte.x00; Byte.x04; Byte.xd2]).
Proof.
  split; [reflexivity|]. split; [reflexivity|]. split.
  - intros g c nfdName config Hg Hc Hm.
    destruct (@addValidator_entryGatingValue unit 1010 unit unit
                (fun _ => Resolved tt) Number BigInt decodeAddress 8 simulate execute
                (Resolved "APPADDRESS"%string) (Resolved tt)
                (fun g => Z.of_nat (length g))
                (mkValidatorConfigInput (Gating.mkGatingInput "1" "CREATORADDRESS")
                                        "" tt) 0
                (WalletSigner "wallet") "STAKER"%string
                (fst (run creatorValidator)) (snd (run creatorValidator))
                eq_refl) as [H _].
    destruct (H g c nfdName config Hg Hc Hm) as [Ha _].
    destruct Ha as (a & Hdec & Hkey & _).
    + split; [discriminate|]. exists (inject_Z 1). split; reflexivity.
    + cbn in Hdec. injection Hdec as <-. exact Hkey.
  - intros g c nfdName config Hg Hc Hm.
    destruct (@addValidator_entryGatingValue unit 1010 unit unit
                (fun _ => Resolved tt) Number BigInt decodeAddress 8 simulate execute
                (Resolved "APPADDRESS"%string) (Resolved tt)
                (fun g => Z.of_nat (length g))
                (mkValidatorConfigInput (Gating.mkGatingInput "2" "1234") "" tt) 0
                (WalletSigner "wallet") "STAKER"%string
                (fst (run assetValidator)) (snd (run assetValidator))
                eq_refl) as [H _].
    destruct (H g c nfdName config Hg Hc Hm) as [_ Hn].
    destruct Hn as (n & Hbig & Hbytes & _).
    + intros (_ & q & Hq & H1). cbn in Hq. injection Hq as <-.
      unfold Qeq in H1. cbn in H1. discriminate H1.
    + cbn in Hbig. injection Hbig as <-. exact Hbytes.
Defined.

End Demo.

(* ================================================================== *)
(** * Pools of a validator: [fetchValidatorPools], [fetchMaxAvailableToStake] *)
(* ================================================================== *)

Module Pools.

Import Async.
Open Scope Z_scope.

Definition PoolInfo : Type := TwoPhase.PoolInfo.

Section FetchMaxAvailableToStake.

Variable RawValidatorConfig : Type.

(** The two simulate-only reads of the registry. *)
Variable callGetValidatorConfig : Z -> Promise (SimulateResult RawValidatorConfig).
Variable callGetPools : Z -> Promise (SimulateResult (list (Z * Z * Z))).

(** [transformValidatorConfig(rawConfig).maxAlgoPerPool]: the transform
    is part of [utils/contracts]; it is handed whatever [returns![0]]
    is, and may throw. *)
Variable maxAlgoPerPoolOf : option RawValidatorConfig -> Promise Z.

Definition fetchValidatorPools (validatorId : Z) : Promise (list PoolInfo) :=
  then_ (callGetPools validatorId) (fun result =>
  then_ (returns_bang0 result) (fun poolsInfo =>
    match poolsInfo with
    | Some l =>
        Resolved (map (fun '(poolAppId, totalStakers, totalAlgoStaked) =>
                         TwoPhase.mkPoolInfo poolAppId totalStakers totalAlgoStaked) l)
    | None => Rejected TypeError
    end)).

(** The callback given to [poolsInfo.reduce]. *)
Definition higherAvailable (maxAlgoPerPool : Z) (acc : Z) (pool : PoolInfo) : Z :=
  let availableToStake := maxAlgoPerPool - TwoPhase.totalAlgoStaked pool in
  if availableToStake >? acc then availableToStake else acc.

Definition fetchMaxAvailableToStake (validatorId : Z) : Promise Z :=
  then_ (callGetValidatorConfig validatorId) (fun validatorConfigResult =>
  then_ (returns_bang0 validatorConfigResult) (fun rawConfig =>
  then_ (maxAlgoPerPoolOf rawConfig) (fun maxAlgoPerPool =>
  then_ (fetchValidatorPools validatorId) (fun poolsInfo =>
  Resolved (fold_left (higherAvailable maxAlgoPerPool) poolsInfo 0))))).



End FetchMaxAvailableToStake.

End Pools.

(* ================================================================== *)
(** * The gating fields of the add-validator form *)
(* ================================================================== *)

Module Form.

Open Scope string_scope.

(** [list.includes(s)] *)
Definition includes (l : list string) (s : string) : bool :=
  existsb (String.eqb s) l.

Definition isEntryGatingEnabled (selectedGatingType : string) : bool :=
  includes ["1"; "2"; "3"; "4"] selectedGatingType.

Definition isGatingAssetMinBalanceEnabled (selectedGatingType : string) : bool :=
  includes ["1"; "2"; "3"] selectedGatingType.

Record GatingValueInfo : Type := mkInfo {
  label : string;
  description : string
}.

(** The [switch] that labels the gating value field. *)
Definition gatingValueInfo (selectedGatingType : string) : GatingValueInfo :=
  if selectedGatingType =? "1" then
    mkInfo "Asset creator account"
           "Must hold asset created by this account to enter pool"
  else if selectedGatingType =? "2" then
    mkInfo "Asset ID" "Must hold asset with this ID to enter pool"
  else if selectedGatingType =? "3" then
    mkInfo "Asset creator NFD"
           "Must hold asset created by an account linked to this NFD to enter pool"
  else if selectedGatingType =? "4" then
    mkInfo "Root/parent NFD"
           "Must hold a segment of this root/parent NFD to enter pool"
  else mkInfo "Unknown" "Unknown".

(** The three gating fields of the form. *)
Record GatingFields : Type := mkGatingFields {
  entryGatingType : string;
  entryGatingValue : string;
  gatingAssetMinBalance : string
}.

(** [onValueChange] of the gating type select. *)
Definition onGatingTypeChange (gatingType : string) (fields : GatingFields)
  : GatingFields :=
  let isNfdSegmentGating := gatingType =? "4" in
  let gatingMinBalance := if isNfdSegmentGating then "1" else "" in
  mkGatingFields gatingType "" gatingMinBalance.

Ltac by_gating_type t :=
  destruct (String.eqb_spec t "1") as [-> | N1]; [cbn; intuition congruence|];
  destruct (String.eqb_spec t "2") as [-> | N2]; [cbn; intuition congruence|];
  destruct (String.eqb_spec t "3") as [-> | N3]; [cbn; intuition congruence|];
  destruct (String.eqb_spec t "4") as [-> | N4]; [cbn; intuition congruence|];
  unfold isEntryGatingEnabled, isGatingAssetMinBalanceEnabled, includes,
    gatingValueInfo, onGatingTypeChange;
  cbn [existsb];
  rewrite ?(proj2 (String.eqb_neq t "1") N1), ?(proj2 (String.eqb_neq t "2") N2),
    ?(proj2 (String.eqb_neq t "3") N3), ?(proj2 (String.eqb_neq t "4") N4);
  cbn; intuition congruence.

(** For every gating type the select can hand over: the minimum-balance
    field is shown only where the gating value field is; the value field
    has a proper label exactly where it is shown; and changing the type
    clears the value and presets the minimum balance to 1 exactly for
    the type whose value field is shown and minimum-balance field is
    not (NFD segments), clearing it otherwise. *)
Lemma gating_fields_consistent (t : string) (fields : GatingFields) :
  (isGatingAssetMinBalanceEnabled t = true -> isEntryGatingEnabled t = true) /\
  (label (gatingValueInfo t) = "Unknown" <-> isEntryGatingEnabled t = false) /\
  entryGatingType (onGatingTypeChange t fields) = t /\
  entryGatingValue (onGatingTypeChange t fields) = "" /\
  (gatingAssetMinBalance (onGatingTypeChange t fields) = "1" <->
     isEntryGatingEnabled t = true /\ isGatingAssetMinBalanceEnabled t = false) /\
  (gatingAssetMinBalance (onGatingTypeChange t fields) = "" \/
   gatingAssetMinBalance (onGatingTypeChange t fields) = "1").
Proof. by_gating_type t. Qed.

End Form.

(* ================================================================== *)
(** * Runs against concrete gateways *)
(* ================================================================== *)

Module Scenarios.

Import Async.
Import TwoPhase.
Open Scope Z_scope.

Definition tr : unit -> unit -> list unit -> unit -> unit -> unit :=
  fun _ _ _ _ _ => tt.

Lemma fetchValidator_no_pools_witness :
  Query.fetchValidator tr FailFast.registry3 1 = Resolved tt.
Proof.
  apply (@Query.fetchValidator_no_pools unit unit unit unit unit unit tr
           FailFast.registry3 1
           (mkSimulateResult (Some [Some tt])) (mkSimulateResult (Some [Some tt]))
           (mkSimulateResult (Some [Some tt])) (mkSimulateResult (Some [Some tt]))
           tt tt tt tt);
    try reflexivity.
  repeat split.
Defined.

Lemma fetchValidator_rejection_witness :
  (Query.callGetValidatorConfig FailFast.registry3 2 = Rejected (GatewayError 503) \/
   Query.callGetValidatorState FailFast.registry3 2 = Rejected (GatewayError 503) \/
   Query.callGetPools FailFast.registry3 2 = Rejected (GatewayError 503) \/
   Query.callGetTokenPayoutRatio FailFast.registry3 2 = Rejected (GatewayError 503) \/
   Query.callGetNodePoolAssignments FailFast.registry3 2
     = Rejected (GatewayError 503)) \/
  (GatewayError 503 = ValidatorNotFoundError 2 /\
   exists config state pools ratios nodes,
     Query.reads_resolved FailFast.registry3 2 config state pools ratios nodes /\
     (returns_opt0 config = None \/ returns_opt0 state = None \/
      returns_opt0 pools = None \/ returns_opt0 ratios = None \/
      returns_opt0 nodes = None)).
Proof.
  apply (@Query.fetchValidator_rejection unit unit unit unit unit unit tr
           FailFast.registry3 2 (GatewayError 503)).
  reflexivity.
Defined.

(** A registry without validators, and one with twelve. *)
Definition registry0 : Query.ValidatorRegistryClient unit unit unit unit unit :=
  Query.mkValidatorRegistryClient
    (fun _ => FailFast.present) (fun _ => FailFast.present)
    (fun _ => Resolved (mkSimulateResult (Some [Some []])))
    (fun _ => FailFast.present) (fun _ => FailFast.present)
    (Resolved (mkSimulateResult (Some [Some 0]))).

Definition registry12 : Query.ValidatorRegistryClient unit unit unit unit unit :=
  Query.mkValidatorRegistryClient
    (fun _ => FailFast.present) (fun _ => FailFast.present)
    (fun _ => Resolved (mkSimulateResult (Some [Some []])))
    (fun _ => FailFast.present) (fun _ => FailFast.present)
    (Resolved (mkSimulateResult (Some [Some 12]))).

Lemma fetchValidators_none_witness :
  Query.fetchValidators tr registry0 = Some (Resolved [], []).
Proof.
  apply (@Query.fetchValidators_none unit unit unit unit unit unit tr registry0).
  right. reflexivity.
Defined.

Lemma fetchValidators_resolves_witness :
  Query.fetchValidators tr registry12
  = Some (Resolved (map (fun position => Some tt) (seq 0 12)),
          Batch.logOf (Batch.batches 12)).
Proof.
  apply (@Query.fetchValidators_resolves unit unit unit unit unit unit tr
           registry12 12 (fun _ => tt)).
  - reflexivity.
  - intros validatorId _. reflexivity.
Defined.

(** A staker in three pools, all of which can be read. *)
Definition stakedPools3 (staker : string)
  : Promise (SimulateResult (list (Z * Z * Z))) :=
  Resolved (mkSimulateResult (Some [Some [(7, 1, 501); (9, 1, 601); (7, 2, 502)]])).

Definition stakerInfo3 (poolAppId : Z) (staker : string)
  : Promise (SimulateResult (string * Z * Z * Z * Z)) :=
  Resolved (mkSimulateResult (Some [Some (staker, poolAppId, 0, 0, 1000)])).

Lemma fetchStakerValidatorData_resolves_witness :
  let info := fun k => Aggregator.mkPool "S" (Aggregator.poolAppId k) 0 0 1000 k in
  Staker.fetchStakerValidatorData stakedPools3 stakerInfo3 "S"
  = Some (Resolved
            (Aggregator.aggregate
               (map info [Aggregator.mkPoolKey 7 1 501; Aggregator.mkPoolKey 9 1 601;
                          Aggregator.mkPoolKey 7 2 502])),
          Batch.logOf (Batch.batches 3)).
Proof.
  intros info.
  apply (@Staker.fetchStakerValidatorData_resolves stakedPools3 stakerInfo3 "S"
           [Aggregator.mkPoolKey 7 1 501; Aggregator.mkPoolKey 9 1 601;
            Aggregator.mkPoolKey 7 2 502] info).
  - reflexivity.
  - intros k [<- | [<- | [<- | []]]]; reflexivity.
Defined.

(** The runs of [addStake] and of an [addValidator] with an empty
    creator address, on the gateway of [Demo]. *)
Definition stake : Request unit := AddStake 7 5000000 0.

Definition badValidator : Request unit :=
  AddValidator (mkValidatorConfigInput (Gating.mkGatingInput "1" "") "" tt) 0.

Lemma executed_fee_witness :
  exists g1 resp,
    In (Simulated g1) (snd (Demo.run stake)) /\
    Demo.simulate g1 = Resolved resp /\
    forall c, In c Demo.addStakeExecuted ->
      if match method c with MGas => true | _ => false end
      then fee c = Some (microAlgos 0) \/ fee c = None
      else fee c = Some (Fees.feesAmount Fees.AddStake (appBudgetAdded resp)).
Proof.
  apply (@executed_fee unit 1010 unit unit (fun _ => Resolved tt)
           Demo.Number Demo.BigInt Demo.decodeAddress 8 Demo.simulate Demo.execute
           (Resolved "APPADDRESS"%string) (Resolved tt)
           (fun g => Z.of_nat (length g))
           stake (WalletSigner "wallet") "STAKER"%string
           (fst (Demo.run stake)) (snd (Demo.run stake))
           eq_refl Demo.addStakeExecuted).
  right. left. reflexivity.
Defined.

Lemma execution_is_last_witness :
  (exists sims, snd (Demo.run stake) = sims ++ [Executed Demo.addStakeExecuted] /\
                forall g', ~ In (Executed g') sims) /\
  (forall e, Demo.execute Demo.addStakeExecuted = Rejected e ->
             fst (Demo.run stake) = Rejected e).
Proof.
  apply (@execution_is_last unit 1010 unit unit (fun _ => Resolved tt)
           Demo.Number Demo.BigInt Demo.decodeAddress 8 Demo.simulate Demo.execute
           (Resolved "APPADDRESS"%string) (Resolved tt)
           (fun g => Z.of_nat (length g))
           stake (WalletSigner "wallet") "STAKER"%string
           (fst (Demo.run stake)) (snd (Demo.run stake))
           eq_refl Demo.addStakeExecuted).
  right. left. reflexivity.
Defined.

Lemma signers_by_phase_witness :
  (forall g c, In (Simulated g) (snd (Demo.run stake)) -> In c g ->
     signer (sender c) = EmptyTransactionSigner /\
     forall p s, payment c = Some (p, s) ->
       s = mkAccount "STAKER" EmptyTransactionSigner) /\
  (forall g c, In (Executed g) (snd (Demo.run stake)) -> In c g ->
     sender c = mkAccount "STAKER" (WalletSigner "wallet") /\
     forall p s, payment c = Some (p, s) ->
       s = mkAccount "STAKER" (WalletSigner "wallet")).
Proof.
  apply (@signers_by_phase unit 1010 unit unit (fun _ => Resolved tt)
           Demo.Number Demo.BigInt Demo.decodeAddress 8 Demo.simulate Demo.execute
           (Resolved "APPADDRESS"%string) (Resolved tt)
           (fun g => Z.of_nat (length g))
           stake (WalletSigner "wallet") "STAKER"%string
           (fst (Demo.run stake)) (snd (Demo.run stake)) eq_refl).
Defined.

Lemma addValidator_bad_gating_value_witness :
  (exists e', fst (Demo.run badValidator) = Rejected e') /\
  (forall g, ~ In (Executed g) (snd (Demo.run badValidator))) /\
  (forall g c, In (Simulated g) (snd (Demo.run badValidator)) -> In c g ->
     method c = MGetMbrAmounts).
Proof.
  apply (@addValidator_bad_gating_value unit 1010 unit unit (fun _ => Resolved tt)
           Demo.Number Demo.BigInt Demo.decodeAddress 8 Demo.simulate Demo.execute
           (Resolved "APPADDRESS"%string) (Resolved tt)
           (fun g => Z.of_nat (length g))
           (mkValidatorConfigInput (Gating.mkGatingInput "1" "") "" tt) 0
           (WalletSigner "wallet") "STAKER"%string (GatewayError 1)
           (fst (Demo.run badValidator)) (snd (Demo.run badValidator))).
  - reflexivity.
  - reflexivity.
Defined.


Example fetchMaxAvailableToStake_run :
  Pools.fetchMaxAvailableToStake
    (fun _ : Z => Resolved (mkSimulateResult (Some [Some tt])))
    (fun _ : Z => Resolved (mkSimulateResult
                    (Some [Some [(501, 3, 400); (502, 5, 1000); (503, 6, 1200)]])))
    (fun _ : option unit => Resolved 1000) 7
  = Resolved 600.
Proof. reflexivity. Qed.

End Scenarios.
